(** * Parent-predicate extraction over the Biolink hierarchy

    A shallow embedding of [extract_parent_predicates.py]
    (custom-mcp-servers/graphModeMCPs/graphmodeMetaKG) and the properties of
    its tree source loader, hierarchy analyzer, parent selector and set
    builder.

    Conventions of the embedding:
    - a tree node is a Python dict with the optional keys ['name'] and
      ['children']; it is modelled by a constructor carrying two options, so
      that ['children' in node] is [Some _] and an absent key is [None]
      (an empty list that is present is [Some []]);
    - Python integers are [Z]; [len] is [Z.of_nat (length _)];
    - the true division [/] of two integers is modelled by the exact quotient
      in the canonical rationals [Qc] (Python rounds that quotient to the
      nearest double; the quotients the code computes on the example trees
      below, such as 5/2 and 7/8, are dyadic and doubles hold them exactly);
    - [for] loops are [fold_left] over the list they iterate; the loop of
      the loader, which can [break], is a recursive function;
    - the text of a file is a list of characters, and [json.loads] is a
      parameter of the loader;
    - the closure variable [analysis], which [analyze_node] appends to, is
      threaded through [analyze_node] as explicit state. *)

From Stdlib Require Import QArith Qcanon Sorting.Sorted Ascii.
From stdpp Require Import base numbers list strings gmap.

Local Open Scope Z_scope.

(** ** Data model *)

#[local] Unset Elimination Schemes.
Inductive Node : Type :=
  mkNode (name : option string) (children : option (list Node)).
#[local] Set Elimination Schemes.

Definition node_name (node : Node) : option string :=
  match node with mkNode name _ => name end.

Definition node_children (node : Node) : option (list Node) :=
  match node with mkNode _ children => children end.

(** The immediate children of a node, the empty list when the key is absent. *)
Definition child_list (node : Node) : list Node :=
  match node_children node with
  | Some children => children
  | None => []
  end.

(** One entry of the [analysis] list: the dict built by [analyze_node]. *)
Record NodeMetrics : Type := mkMetrics {
  name : string;
  depth : Z;
  direct_children : Z;
  total_children : Z;
  coverage_ratio : Qc;
  efficiency : Qc;
  has_children : bool
}.

(** ** Counting helpers *)

(** [count_children_recursive(node, depth=0)]: the pair
    [(total_children, direct_children)]. *)
Fixpoint count_children_recursive (node : Node) (depth : Z) {struct node} : Z * Z :=
  match node with
  | mkNode _ None => (0, 0)
  | mkNode _ (Some children) =>
      let direct_children := Z.of_nat (length children) in
      let total_children :=
        fold_left
          (fun total_children child =>
             let '(child_total, _) := count_children_recursive child (depth + 1) in
             total_children + child_total)
          children direct_children in
      (total_children, direct_children)
  end.

(** [extract_all_predicates(node, depth=0)]. *)
Fixpoint extract_all_predicates (node : Node) (depth : Z) {struct node} : list string :=
  match node with
  | mkNode name children =>
      let predicates := match name with Some nm => [nm] | None => [] end in
      match children with
      | Some children =>
          fold_left
            (fun predicates child =>
               predicates ++ extract_all_predicates child (depth + 1))
            children predicates
      | None => predicates
      end
  end.

(** ** Hierarchy analyzer *)

(** The nested function [analyze_node(node, depth=0)] of [analyze_hierarchy].
    It closes over [all_predicates] and appends to the list [analysis] of the
    enclosing call; the list is passed in and the updated list is returned. *)
Fixpoint analyze_node (all_predicates : list string) (node : Node) (depth : Z)
    (analysis : list NodeMetrics) {struct node} : list NodeMetrics :=
  match node with
  | mkNode None _ => analysis
  | mkNode (Some nm) children =>
      let '(total_children, direct_children) := count_children_recursive node 0 in
      let coverage_ratio :=
        match all_predicates with
        | [] => Qc_of_Z 0
        | _ => (Qc_of_Z total_children / Qc_of_Z (Z.of_nat (length all_predicates)))%Qc
        end in
      let efficiency :=
        if depth >? 0
        then (Qc_of_Z total_children / Qc_of_Z (depth + 1))%Qc
        else Qc_of_Z total_children in
      let analysis :=
        analysis ++ [ {| name := nm;
                         depth := depth;
                         direct_children := direct_children;
                         total_children := total_children;
                         coverage_ratio := coverage_ratio;
                         efficiency := efficiency;
                         has_children :=
                           match children with Some _ => true | None => false end |} ] in
      match children with
      | Some children =>
          fold_left
            (fun analysis child => analyze_node all_predicates child (depth + 1) analysis)
            children analysis
      | None => analysis
      end
  end.

(** [analyze_hierarchy(tree_data)]; [None] is the [IndexError] of
    [tree_data[0]] on an empty container. *)
Definition analyze_hierarchy (tree_data : list Node) : option (list NodeMetrics) :=
  match tree_data with
  | [] => None
  | root :: _ =>
      let all_predicates := extract_all_predicates root 0 in
      Some (analyze_node all_predicates root 0 [])
  end.

(** ** Parent selector *)

Definition Qc_ltb (x y : Qc) : bool :=
  match (x ?= y)%Qc with Lt => true | _ => false end.

(** [l.sort(key=key, reverse=True)].  The builtin sort is stable, and with
    [reverse=True] elements with equal keys still keep their original order.
    It is modelled by an insertion sort that only ever asks whether one key
    is smaller than another. *)
Section SortReverse.
Context {A : Type} (key : A -> Qc).

Fixpoint insert_reverse (x : A) (sorted : list A) : list A :=
  match sorted with
  | [] => [x]
  | y :: rest =>
      if Qc_ltb (key x) (key y) then y :: insert_reverse x rest
      else x :: y :: rest
  end.

Definition sort_reverse (l : list A) : list A := foldr insert_reverse [] l.
End SortReverse.

(** [a] may stand before [b] in a list sorted by [key] in descending order. *)
Definition descending_by {A : Type} (key : A -> Qc) (a b : A) : Prop :=
  (key b <= key a)%Qc.

(** The condition of the list comprehension in [find_optimal_parents]. *)
Definition is_candidate (min_children max_depth : Z) (node : NodeMetrics) : bool :=
  has_children node &&
  (total_children node >=? min_children) &&
  (depth node <=? max_depth) &&
  negb (String.eqb (name node) "related_to").

(** [find_optimal_parents(analysis, min_children=5, max_depth=3)]. *)
Definition find_optimal_parents (analysis : list NodeMetrics)
    (min_children max_depth : Z) : list NodeMetrics :=
  let candidates := List.filter (is_candidate min_children max_depth) analysis in
  sort_reverse efficiency candidates.

(** ** Set builder *)

(** The part of [create_predicate_sets] after the optimal parents are found:
    the four named lists as a function of [optimal_parents]. *)
Definition build_sets (optimal_parents : list NodeMetrics) : gmap string (list string) :=
  let sets : gmap string (list string) :=
    <["high_level" := []]> (<["minimal" := []]> (<["focused" := []]>
      (<["comprehensive" := []]> ∅))) in
  let sets := <["comprehensive" := map name (take 5 optimal_parents)]> sets in
  let focused_candidates :=
    List.filter (fun p => (20 <=? total_children p) && (total_children p <=? 50))
      optimal_parents in
  let sets := <["focused" := map name (take 8 focused_candidates)]> sets in
  let minimal_candidates :=
    List.filter (fun p => (5 <=? total_children p) && (total_children p <=? 20))
      optimal_parents in
  let sets := <["minimal" := map name (take 6 minimal_candidates)]> sets in
  let high_level_candidates :=
    List.filter (fun p => depth p <=? 2) optimal_parents in
  let sets := <["high_level" := map name (take 6 high_level_candidates)]> sets in
  sets.

(** [create_predicate_sets(analysis)]. *)
Definition create_predicate_sets (analysis : list NodeMetrics) : gmap string (list string) :=
  let optimal_parents := find_optimal_parents analysis 10 2 in
  build_sets optimal_parents.

(** ** Vocabulary of the specification: nodes of a tree, sums over them *)

(** All nodes of the tree rooted at [node], parents before children. *)
Fixpoint all_nodes (node : Node) : list Node :=
  node :: match node with
          | mkNode _ (Some children) => concat (map all_nodes children)
          | mkNode _ None => []
          end.

Definition sum_Z (l : list Z) : Z := foldr Z.add 0 l.

(** The same tree with every ['name'] key removed: the shape of the tree. *)
Fixpoint shape (node : Node) : Node :=
  match node with
  | mkNode _ children => mkNode None (map shape <$> children)
  end.

(** Every node of the tree carries a ['name']. *)
Definition all_named (root : Node) : Prop :=
  Forall (fun node => is_Some (node_name node)) (all_nodes root).

(** ** Example metrics *)

(** An entry with children, [total] descendants and efficiency [eff]. *)
Definition sample_entry (nm : string) (d total eff : Z) : NodeMetrics :=
  {| name := nm; depth := d; direct_children := total; total_children := total;
     coverage_ratio := Qc_of_Z 0; efficiency := Qc_of_Z eff; has_children := true |}.

Definition sample_metrics : list NodeMetrics :=
  [ sample_entry "related_to" 0 120 120;
    sample_entry "treats" 2 3 1;
    sample_entry "interacts_with" 1 12 6;
    sample_entry "affects" 1 40 20;
    sample_entry "regulates" 2 18 6 ].

(** Ten optimal parents with pairwise distinct efficiencies, best first. *)
Definition ten_parents : list NodeMetrics :=
  [ sample_entry "p0" 1 60 30; sample_entry "p1" 1 50 25;
    sample_entry "p2" 1 44 22; sample_entry "p3" 1 40 20;
    sample_entry "p4" 2 54 18; sample_entry "p5" 2 45 15;
    sample_entry "p6" 2 36 12; sample_entry "p7" 2 33 11;
    sample_entry "p8" 2 30 10; sample_entry "p9" 2 15 5 ].

(** ** Induction over trees *)

Section NodeInduction.
Variable P : Node -> Prop.
Hypothesis Hleaf : forall name, P (mkNode name None).
Hypothesis Hinner :
  forall name children, Forall P children -> P (mkNode name (Some children)).

Fixpoint Node_forest_ind (node : Node) : P node :=
  match node with
  | mkNode name None => Hleaf name
  | mkNode name (Some children) =>
      Hinner name children
        ((fix go (l : list Node) : Forall P l :=
            match l with
            | [] => @List.Forall_nil Node P
            | c :: l' => @List.Forall_cons Node P c l' (Node_forest_ind c) (go l')
            end) children)
  end.
End NodeInduction.

(** ** Vocabulary of the specification: positions in a tree *)

(** The node reached from [node] by following child indices. *)
Fixpoint subtree_at (node : Node) (path : list nat) : option Node :=
  match path with
  | [] => Some node
  | i :: path' =>
      match child_list node !! i with
      | Some child => subtree_at child path'
      | None => None
      end
  end.

(** [path] leads to a node of the tree, and that node and all the nodes on
    the way to it from the root carry a name. *)
Fixpoint named_along (node : Node) (path : list nat) : Prop :=
  is_Some (node_name node) /\
  match path with
  | [] => True
  | i :: path' =>
      exists child, child_list node !! i = Some child /\ named_along child path'
  end.

(** The positions the traversal of [analyze_node] stops at, in the order it
    reaches them. *)
Fixpoint visited_paths (node : Node) : list (list nat) :=
  match node with
  | mkNode None _ => []
  | mkNode (Some _) children =>
      [] :: match children with
            | Some children =>
                concat (imap (fun i paths => map (cons i) paths)
                          (map visited_paths children))
            | None => []
            end
  end.

(** The entry [analyze_node] writes for [node] itself when it meets it at
    [depth]; [None] when the node is skipped. *)
Definition metrics_of (all_predicates : list string) (node : Node) (depth : Z)
  : option NodeMetrics :=
  head (analyze_node all_predicates node depth []).

(** [e] is the entry written for the node at position [path] below [root],
    when [root] itself is met at depth [d]. *)
Definition entry_at (all_predicates : list string) (root : Node) (d : Z)
    (path : list nat) (e : NodeMetrics) : Prop :=
  exists node,
    subtree_at root path = Some node /\
    metrics_of all_predicates node (d + Z.of_nat (length path)) = Some e.

(** The first [k] entries of [l] that satisfy [keep], found by scanning [l]
    from the front; nothing is reordered. *)
Fixpoint first_matching (k : nat) (keep : NodeMetrics -> bool) (l : list NodeMetrics)
  : list NodeMetrics :=
  match l with
  | [] => []
  | x :: l' =>
      match k with
      | O => []
      | S k' =>
          if keep x then x :: first_matching k' keep l'
          else first_matching k keep l'
      end
  end.

(** ** Example trees *)

Definition leaf (nm : string) : Node := mkNode (Some nm) None.

(** Root [A] with children [B, C]; [B] has five leaves, [C] has an empty,
    present list of children. *)
Definition worked_example : Node :=
  mkNode (Some "A")
    (Some [ mkNode (Some "B") (Some [leaf "D"; leaf "E"; leaf "F"; leaf "G"; leaf "H"]);
            mkNode (Some "C") (Some []) ]).

(** [A -> [B(no name), C]] where [B] has children [D, E]. *)
Definition malformed_example : Node :=
  mkNode (Some "A")
    (Some [ mkNode None (Some [leaf "D"; leaf "E"]); leaf "C" ]).

(** A named root whose two children both lack a name. *)
Definition nameless_children_example : Node :=
  mkNode (Some "A") (Some [ mkNode None None; mkNode None None ]).

(** ** Tree source loader *)

(** The text of the HTML file is a list of characters.  Positions are
    Python integers; every slice taken by the loader has bounds that are not
    negative. *)

(** [s[start:]] and [s[start:stop]] for bounds that are not negative. *)
Definition slice_from (start : Z) (s : list ascii) : list ascii :=
  drop (Z.to_nat start) s.

Definition slice (start stop : Z) (s : list ascii) : list ascii :=
  take (Z.to_nat stop - Z.to_nat start) (drop (Z.to_nat start) s).

(** [s.startswith(sub)]. *)
Fixpoint starts_with (sub s : list ascii) : bool :=
  match sub, s with
  | [], _ => true
  | c :: sub', d :: s' => Ascii.eqb c d && starts_with sub' s'
  | _ :: _, [] => false
  end.

(** [s.find(sub)]: the lowest index at which [sub] occurs in [s], or [-1].
    [find_at] searches the rest of the text, which starts at index [i]. *)
Fixpoint find_at (sub s : list ascii) (i : Z) : Z :=
  if starts_with sub s then i
  else match s with
       | [] => -1
       | _ :: s' => find_at sub s' (i + 1)
       end.

Definition str_find (sub s : list ascii) : Z := find_at sub s 0.

(** The two [ValueError]s of [load_hierarchy_from_html], and the error of
    the JSON parser. *)
Inductive LoadError (JSONDecodeError : Type) : Type :=
  | CouldNotFindTreeData
  | CouldNotFindEnd
  | JSONError (e : JSONDecodeError).
Arguments CouldNotFindTreeData {JSONDecodeError}.
Arguments CouldNotFindEnd {JSONDecodeError}.
Arguments JSONError {JSONDecodeError} e.

Definition tree_data_marker : list ascii := String.list_ascii_of_string "var treeData = [".
Definition tree_data_assignment : list ascii := String.list_ascii_of_string "var treeData = ".

(** The loop [for i, char in enumerate(content[start_pos:], start_pos)]:
    [Some end_pos] when the loop reaches [break], [None] when it runs to the
    end (the [else] branch of the loop). *)
Fixpoint find_array_end (chars : list ascii) (i : Z) (bracket_count : Z) : option Z :=
  match chars with
  | [] => None
  | char :: chars' =>
      if Ascii.eqb char "[" then find_array_end chars' (i + 1) (bracket_count + 1)
      else if Ascii.eqb char "]" then
        let bracket_count := bracket_count - 1 in
        if bracket_count =? 0 then Some (i + 1)
        else find_array_end chars' (i + 1) bracket_count
      else find_array_end chars' (i + 1) bracket_count
  end.

(** [load_hierarchy_from_html], from the text read from the file on; the
    parser [json.loads] is a parameter. *)
Definition load_hierarchy_from_html {Tree JSONDecodeError : Type}
    (json_loads : list ascii -> JSONDecodeError + Tree) (content : list ascii)
  : LoadError JSONDecodeError + Tree :=
  let start := str_find tree_data_marker content in
  if start =? -1 then inl CouldNotFindTreeData
  else
    let start_pos := start + Z.of_nat (length tree_data_assignment) in
    match find_array_end (slice_from start_pos content) start_pos 0 with
    | None => inl CouldNotFindEnd
    | Some end_pos =>
        let json_str := slice start_pos end_pos content in
        match json_loads json_str with
        | inl e => inl (JSONError e)
        | inr tree_data => inr tree_data
        end
    end.

(** The number of ['['] minus the number of [']'] in a text. *)
Fixpoint bracket_excess (chars : list ascii) : Z :=
  match chars with
  | [] => 0
  | char :: chars' =>
      (if Ascii.eqb char "[" then 1 else if Ascii.eqb char "]" then -1 else 0)
      + bracket_excess chars'
  end.

(** [sub] occurs in [s] at index [i]. *)
Definition occurs_at (sub s : list ascii) (i : nat) : Prop :=
  sub `prefix_of` drop i s.

(** [i] is the lowest index at which [sub] occurs in [s]. *)
Definition first_occurrence (sub s : list ascii) (i : nat) : Prop :=
  occurs_at sub s i /\ forall j, (j < i)%nat -> ~ occurs_at sub s j.

(** [json_str] runs from an opening bracket to the bracket that brings the
    count of open brackets back to zero for the first time. *)
Definition closes_first_bracket (json_str : list ascii) : Prop :=
  head json_str = Some "["%char /\
  last json_str = Some "]"%char /\
  bracket_excess json_str = 0 /\
  forall m, (0 < m < length json_str)%nat -> 1 <= bracket_excess (take m json_str).

(** What the loader returns once it hands [json_str] to the parser. *)
Definition parsed {Tree JSONDecodeError : Type}
    (json_loads : list ascii -> JSONDecodeError + Tree) (json_str : list ascii)
  : LoadError JSONDecodeError + Tree :=
  match json_loads json_str with
  | inl e => inl (JSONError e)
  | inr tree_data => inr tree_data
  end.

(** Sample texts and a parser that accepts every text. *)
Definition sample_html : list ascii :=
  String.list_ascii_of_string "<script>var treeData = [{n: [1, 2]}, []]; var x = [3];</script>".

Definition sample_html_quoted : list ascii :=
  String.list_ascii_of_string "var treeData = [{n: 'a]'}, [1]];".

Definition accept_all (json_str : list ascii) : () + list ascii := inr json_str.

(** ** The results of a run *)



(** [next((p for p in analysis if p['name'] == pred), None)]. *)
Definition pred_data (analysis : list NodeMetrics) (pred : string) : option NodeMetrics :=
  List.find (fun p => String.eqb (name p) pred) analysis.

(** ** Loop lemmas *)

Lemma sum_Z_app l1 l2 : sum_Z (l1 ++ l2) = sum_Z l1 + sum_Z l2.
Proof. unfold sum_Z. induction l1 as [|x l1 IH]; simpl; lia. Qed.

Lemma sum_Z_cons x l : sum_Z (x :: l) = x + sum_Z l.
Proof. done. Qed.

Lemma fold_left_add_sum {A} (f : A -> Z) (l : list A) (acc : Z) :
  fold_left (fun acc x => acc + f x) l acc = acc + sum_Z (map f l).
Proof.
  revert acc. induction l as [|x l IH]; intros acc; simpl.
  - unfold sum_Z; simpl; lia.
  - rewrite IH. unfold sum_Z; simpl; lia.
Qed.

Lemma fold_left_ext {A B} (f g : B -> A -> B) (l : list A) (acc : B) :
  (forall b a, f b a = g b a) -> fold_left f l acc = fold_left g l acc.
Proof.
  intros Hfg. revert acc. induction l as [|x l IH]; intros acc; simpl; [done|].
  by rewrite Hfg, IH.
Qed.

Lemma count_children_recursive_unfold name children depth :
  count_children_recursive (mkNode name (Some children)) depth =
  (Z.of_nat (length children)
   + sum_Z (map (fun child => (count_children_recursive child (depth + 1)).1) children),
   Z.of_nat (length children)).
Proof.
  simpl. f_equal.
  rewrite <- fold_left_add_sum. apply fold_left_ext; intros acc child.
  by destruct (count_children_recursive child (depth + 1)).
Qed.

(** ** Child counts *)

Lemma count_children_recursive_depth node depth depth' :
  count_children_recursive node depth = count_children_recursive node depth'.
Proof.
  revert depth depth'.
  induction node as [nm|nm children IH] using Node_forest_ind; intros depth depth'.
  - done.
  - rewrite !count_children_recursive_unfold. do 2 f_equal.
    induction IH as [|c cs Hc _ IHcs]; simpl; [done|].
    by rewrite (Hc (depth + 1) (depth' + 1)), IHcs.
Qed.

Lemma count_children_recursive_direct node depth :
  (count_children_recursive node depth).2 = Z.of_nat (length (child_list node)).
Proof. by destruct node as [nm [children|]]. Qed.

Lemma all_nodes_length_pos node : (0 < length (all_nodes node))%nat.
Proof. destruct node as [nm [children|]]; simpl; lia. Qed.

Lemma count_children_recursive_total node depth :
  (count_children_recursive node depth).1 = Z.of_nat (length (all_nodes node)) - 1.
Proof.
  revert depth.
  induction node as [nm|nm children IH] using Node_forest_ind; intros depth.
  - done.
  - rewrite count_children_recursive_unfold. cbn [fst all_nodes length].
    induction IH as [|c cs Hc _ IHcs]; cbn [map concat length].
    + unfold sum_Z; simpl; lia.
    + rewrite length_app. unfold sum_Z in *; cbn [foldr].
      rewrite (Hc (depth + 1)). pose proof (all_nodes_length_pos c). lia.
Qed.

Lemma count_children_recursive_shape node node' depth depth' :
  shape node = shape node' ->
  count_children_recursive node depth = count_children_recursive node' depth'.
Proof.
  revert node' depth depth'.
  induction node as [nm|nm children IH] using Node_forest_ind;
    intros [nm' [children'|]] depth depth' Hshape; simpl in Hshape;
    try discriminate; [done|].
  injection Hshape as Hmap.
  rewrite !count_children_recursive_unfold.
  assert (length children = length children') as Hlen
    by (rewrite <- (length_map shape children), <- (length_map shape children');
        by f_equal).
  rewrite Hlen. do 2 f_equal.
  clear Hlen. revert children' Hmap. induction IH as [|c cs Hc _ IHcs];
    intros [|c' cs'] Hmap; simpl in Hmap; try discriminate; [done|].
  injection Hmap as Hc' Hcs'. simpl.
  by rewrite (Hc c' (depth + 1) (depth' + 1) Hc'), (IHcs cs' Hcs').
Qed.

(** A sum over the nodes of a forest, from the sums over its trees. *)
Lemma forest_sum (f : Node -> Z) (forest : list Node) :
  Forall (fun tree => sum_Z (map f (all_nodes tree))
                      = Z.of_nat (length (all_nodes tree)) - 1) forest ->
  sum_Z (map f (concat (map all_nodes forest)))
  = Z.of_nat (length (concat (map all_nodes forest))) - Z.of_nat (length forest).
Proof.
  induction 1 as [|tree forest Htree _ IH]; [done|].
  cbn [map concat length].
  rewrite map_app, sum_Z_app, length_app, Htree, IH. lia.
Qed.

(** C7: for every node, [direct_children] is the number of immediate
    children (0 when the [children] key is absent) and [total_children] is
    [direct_children] plus the sum of the children's [total_children]; the
    [depth] arguments of the counting helper play no part in it. *)
Theorem total_children_recurrence (node : Node) (depth depth' : Z) :
  (count_children_recursive node depth).2 = Z.of_nat (length (child_list node)) /\
  (count_children_recursive node depth).1 =
    (count_children_recursive node depth).2
    + sum_Z (map (fun child => (count_children_recursive child depth').1)
                 (child_list node)).
Proof.
  split; [apply count_children_recursive_direct|].
  destruct node as [nm [children|]].
  - rewrite count_children_recursive_unfold. cbn [fst snd child_list node_children].
    do 2 f_equal. apply map_ext; intros child.
    by rewrite (count_children_recursive_depth child (depth + 1) depth').
  - done.
Qed.

(** C8: over all nodes of a tree, the [direct_children] counts add up to the
    number of nodes minus one. *)
Theorem direct_children_sum (root : Node) (depth : Z) :
  sum_Z (map (fun node => (count_children_recursive node depth).2) (all_nodes root))
  = Z.of_nat (length (all_nodes root)) - 1.
Proof.
  induction root as [nm|nm children IH] using Node_forest_ind; [done|].
  cbn [all_nodes map length].
  rewrite sum_Z_cons, count_children_recursive_direct.
  cbn [child_list node_children].
  rewrite (forest_sum _ _ IH). lia.
Qed.

(** ** The traversal of [analyze_node] *)

Lemma fold_left_append {A B} (f : list B -> A -> list B) (g : A -> list B)
    (l : list A) (acc : list B) :
  Forall (fun x => forall acc, f acc x = acc ++ g x) l ->
  fold_left f l acc = acc ++ concat (map g l).
Proof.
  intros Hl. revert acc. induction Hl as [|x l Hx _ IH]; intros acc; simpl.
  - by rewrite app_nil_r.
  - by rewrite Hx, IH, app_assoc.
Qed.

(** One step of [analyze_node] at a node that has a name. *)
Lemma analyze_node_named all_predicates nm children depth analysis :
  let node := mkNode (Some nm) children in
  analyze_node all_predicates node depth analysis
  = fold_left
      (fun analysis child => analyze_node all_predicates child (depth + 1) analysis)
      (child_list node)
      (analysis ++
       [ {| name := nm;
            depth := depth;
            direct_children := (count_children_recursive node 0).2;
            total_children := (count_children_recursive node 0).1;
            coverage_ratio :=
              match all_predicates with
              | [] => Qc_of_Z 0
              | _ => (Qc_of_Z (count_children_recursive node 0).1
                      / Qc_of_Z (Z.of_nat (length all_predicates)))%Qc
              end;
            efficiency :=
              if depth >? 0
              then (Qc_of_Z (count_children_recursive node 0).1 / Qc_of_Z (depth + 1))%Qc
              else Qc_of_Z (count_children_recursive node 0).1;
            has_children := bool_decide (is_Some children) |} ]).
Proof.
  intros node. subst node. cbn [analyze_node].
  destruct (count_children_recursive _ 0) as [total direct].
  destruct children as [children|]; cbn [child_list node_children fold_left fst snd].
  - rewrite bool_decide_eq_true_2 by eauto. done.
  - rewrite bool_decide_eq_false_2 by (by intros [? ?]). done.
Qed.

(** Appending to the shared list: a call only ever extends [analysis]. *)
Lemma analyze_node_app all_predicates node depth analysis :
  analyze_node all_predicates node depth analysis
  = analysis ++ analyze_node all_predicates node depth [].
Proof.
  revert depth analysis.
  induction node as [nm|nm children IH] using Node_forest_ind;
    intros depth analysis.
  - destruct nm as [nm|]; [|by rewrite app_nil_r].
    rewrite !analyze_node_named. done.
  - destruct nm as [nm|]; [|by rewrite app_nil_r].
    rewrite !analyze_node_named. cbn [child_list node_children].
    rewrite !(fold_left_append _
                (fun child => analyze_node all_predicates child (depth + 1) [])).
    + by rewrite app_nil_l, app_assoc.
    + eapply Forall_impl; [exact IH|]. intros child Hchild acc. apply Hchild.
    + eapply Forall_impl; [exact IH|]. intros child Hchild acc. apply Hchild.
Qed.

Lemma analyze_node_children all_predicates children d analysis :
  fold_left
    (fun analysis child => analyze_node all_predicates child d analysis)
    children analysis
  = analysis ++ concat (map (fun child => analyze_node all_predicates child d []) children).
Proof.
  apply fold_left_append, Forall_forall. intros child _ acc.
  apply analyze_node_app.
Qed.

(** The fields of the entry written for a node. *)
Lemma metrics_of_fields all_predicates node d e :
  metrics_of all_predicates node d = Some e ->
  node_name node = Some (name e) /\
  depth e = d /\
  direct_children e = (count_children_recursive node 0).2 /\
  total_children e = (count_children_recursive node 0).1 /\
  coverage_ratio e =
    match all_predicates with
    | [] => Qc_of_Z 0
    | _ => (Qc_of_Z (total_children e) / Qc_of_Z (Z.of_nat (length all_predicates)))%Qc
    end /\
  efficiency e =
    (if d >? 0 then (Qc_of_Z (total_children e) / Qc_of_Z (d + 1))%Qc
     else Qc_of_Z (total_children e)) /\
  has_children e = bool_decide (is_Some (node_children node)).
Proof.
  unfold metrics_of. destruct node as [[nm|] children]; [|done].
  rewrite analyze_node_named, analyze_node_children. cbn [app head].
  intros [= <-]. done.
Qed.

Lemma metrics_of_is_Some all_predicates node d :
  is_Some (metrics_of all_predicates node d) <-> is_Some (node_name node).
Proof.
  unfold metrics_of. destruct node as [[nm|] children].
  - rewrite analyze_node_named, analyze_node_children. cbn [app head]. split; eauto.
  - cbn. split; intros [? ?]; done.
Qed.

(** [analyze_node] lists a named node first and then, child by child, what
    the recursive calls list; it lists nothing at a node without a name. *)
Lemma analyze_node_preorder all_predicates node d :
  analyze_node all_predicates node d []
  = match metrics_of all_predicates node d with
    | Some e =>
        e :: concat (map (fun child => analyze_node all_predicates child (d + 1) [])
                         (child_list node))
    | None => []
    end.
Proof.
  unfold metrics_of. destruct node as [[nm|] children]; [|done].
  rewrite analyze_node_named, analyze_node_children. done.
Qed.

Lemma elem_of_concat {A} (x : A) (ls : list (list A)) :
  x ∈ concat ls <-> exists l, l ∈ ls /\ x ∈ l.
Proof.
  rewrite list_elem_of_In, in_concat. split.
  - intros (l & ? & ?). exists l. by rewrite !list_elem_of_In.
  - intros (l & ? & ?). exists l. by rewrite <- !list_elem_of_In.
Qed.

Lemma elem_of_indexed_concat (i : nat) (path : list nat) (L : list (list (list nat))) :
  i :: path ∈ concat (imap (fun i paths => map (cons i) paths) L)
  <-> exists paths, L !! i = Some paths /\ path ∈ paths.
Proof.
  rewrite elem_of_concat. split.
  - intros (ps & Hps & Hin). apply elem_of_lookup_imap_1 in Hps as (j & paths & -> & Hj).
    apply list_elem_of_fmap in Hin as (path' & [= -> ->] & Hin). eauto.
  - intros (paths & Hi & Hin). exists (map (cons i) paths). split.
    + apply (elem_of_lookup_imap_2 (fun i paths => map (cons i) paths) L paths i Hi).
    + apply list_elem_of_fmap. eauto.
Qed.

(** The traversal stops exactly at the positions whose node, and every node
    above it, has a name. *)
Lemma visited_paths_named node path :
  path ∈ visited_paths node <-> named_along node path.
Proof.
  revert path.
  induction node as [nm|nm children IH] using Node_forest_ind; intros path.
  - destruct nm as [nm|]; cbn [visited_paths].
    + rewrite list_elem_of_singleton. destruct path as [|i path]; cbn.
      * split; eauto.
      * split; [done|]. intros (_ & child & ? & _). done.
    + split; [by intros ?%elem_of_nil|]. destruct path; cbn; by intros [[? ?] _].
  - destruct nm as [nm|]; cbn [visited_paths].
    + destruct path as [|i path].
      * split; [cbn; eauto|]. intros _. apply list_elem_of_here.
      * rewrite elem_of_cons, elem_of_indexed_concat.
        cbn [named_along child_list node_children node_name].
        split.
        -- intros [?|(paths & Hi & Hin)]; [done|].
           rewrite list_lookup_fmap in Hi.
           destruct (children !! i) as [child|] eqn:Hchild; [|done].
           injection Hi as <-. split; [eauto|]. exists child. split; [done|].
           by apply (proj1 (Forall_lookup _ _) IH i child Hchild).
        -- intros (_ & child & Hchild & Hnamed). right.
           exists (visited_paths child). rewrite list_lookup_fmap, Hchild.
           split; [done|].
           by apply (proj1 (Forall_lookup _ _) IH i child Hchild).
    + split; [by intros ?%elem_of_nil|]. destruct path; cbn; by intros [[? ?] _].
Qed.

Lemma entry_at_child all_predicates nm pre child rest d path e :
  entry_at all_predicates child (d + 1) path e ->
  entry_at all_predicates (mkNode nm (Some (pre ++ child :: rest))) d
    (length pre :: path) e.
Proof.
  intros (node & Hnode & He). exists node. split.
  - cbn [subtree_at child_list node_children].
    by rewrite list_lookup_middle.
  - cbn [length]. by replace (d + Z.of_nat (S (length path)))
      with (d + 1 + Z.of_nat (length path)) by lia.
Qed.

Lemma forest_entries all_predicates nm d children :
  Forall (fun child => forall d,
            Forall2 (entry_at all_predicates child d) (visited_paths child)
                    (analyze_node all_predicates child d [])) children ->
  forall pre,
    Forall2 (entry_at all_predicates (mkNode nm (Some (pre ++ children))) d)
      (concat (imap (fun i paths => map (cons (length pre + i)%nat) paths)
                    (map visited_paths children)))
      (concat (map (fun child => analyze_node all_predicates child (d + 1) []) children)).
Proof.
  induction 1 as [|child rest Hchild _ IH]; intros pre; [constructor|].
  cbn [map imap concat]. apply Forall2_app.
  - apply Forall2_fmap_l. eapply Forall2_impl; [apply (Hchild (d + 1))|].
    intros path e He. rewrite Nat.add_0_r. by apply entry_at_child.
  - specialize (IH (pre ++ [child])). rewrite <- app_assoc in IH. cbn [app] in IH.
    erewrite imap_ext; [exact IH|].
    intros i paths _. cbn. rewrite length_app. cbn [length].
    by replace (length pre + 1 + i)%nat with (length pre + S i)%nat by lia.
Qed.

(** The entries of the analysis, in order, are the entries of the visited
    positions. *)
Lemma analyze_node_entries all_predicates node d :
  Forall2 (entry_at all_predicates node d) (visited_paths node)
          (analyze_node all_predicates node d []).
Proof.
  revert d.
  induction node as [nm|nm children IH] using Node_forest_ind; intros d;
    rewrite analyze_node_preorder;
    (destruct nm as [nm|]; [|constructor]).
  - destruct (metrics_of_is_Some all_predicates (mkNode (Some nm) None) d)
      as [_ [e He]]; [by eexists|].
    rewrite He. cbn. repeat constructor. exists (mkNode (Some nm) None).
    split; [done|]. cbn [length]. by rewrite Z.add_0_r.
  - destruct (metrics_of_is_Some all_predicates (mkNode (Some nm) (Some children)) d)
      as [_ [e He]]; [by eexists|].
    rewrite He. cbn [visited_paths child_list node_children]. constructor.
    + exists (mkNode (Some nm) (Some children)).
      split; [done|]. cbn [length]. by rewrite Z.add_0_r.
    + apply (forest_entries all_predicates (Some nm) d children IH []).
Qed.

Lemma named_along_prefix root path below :
  named_along root (path ++ below) ->
  exists node, subtree_at root path = Some node /\ is_Some (node_name node).
Proof.
  revert root. induction path as [|i path IH]; intros root Hnamed.
  - exists root. split; [done|]. by destruct below; destruct Hnamed.
  - destruct Hnamed as (_ & child & Hchild & Hnamed).
    cbn [subtree_at]. rewrite Hchild. by apply IH.
Qed.

(** Where an entry of the analysis comes from. *)
Lemma analysis_entry_origin root rest analysis e :
  analyze_hierarchy (root :: rest) = Some analysis ->
  e ∈ analysis ->
  exists path node,
    path ∈ visited_paths root /\
    subtree_at root path = Some node /\
    metrics_of (extract_all_predicates root 0) node (Z.of_nat (length path)) = Some e.
Proof.
  intros [= <-] (i & Hi)%list_elem_of_lookup.
  destruct (Forall2_lookup_r _ _ _ _ _
              (analyze_node_entries (extract_all_predicates root 0) root 0) Hi)
    as (path & Hpath & node & Hnode & He).
  exists path, node. split; [by eapply list_elem_of_lookup_2|]. by split.
Qed.

(** C3: the analysis of a tree succeeds; its entries are, one for one and in
    order, those of the positions the traversal stops at; the traversal stops
    at a position exactly when the node there and all nodes above it have a
    name; so a node without a name, and every position below it, has no
    entry, while the rest of the tree is still analyzed. *)
Theorem analyze_drops_nameless_subtrees (root : Node) (rest : list Node) :
  exists analysis,
    analyze_hierarchy (root :: rest) = Some analysis /\
    Forall2
      (fun path e =>
         exists node, subtree_at root path = Some node /\
                      node_name node = Some (name e) /\
                      depth e = Z.of_nat (length path))
      (visited_paths root) analysis /\
    (forall path, path ∈ visited_paths root <-> named_along root path) /\
    (forall path below node,
        subtree_at root path = Some node ->
        node_name node = None ->
        path ++ below ∉ visited_paths root).
Proof.
  eexists. split; [done|]. split; [|split].
  - eapply Forall2_impl; [apply analyze_node_entries|].
    intros path e (node & Hnode & He). exists node. split; [done|].
    apply metrics_of_fields in He as (Hname & Hdepth & _). split; [done|]. lia.
  - apply visited_paths_named.
  - intros path below node Hnode Hname Hin.
    apply visited_paths_named, named_along_prefix in Hin as (node' & Hnode' & [nm Hnm]).
    congruence.
Qed.

Lemma analyze_drops_nameless_subtrees_witness :
  exists analysis,
    analyze_hierarchy [malformed_example] = Some analysis /\
    [0%nat; 1%nat] ∉ visited_paths malformed_example.
Proof.
  destruct (analyze_drops_nameless_subtrees malformed_example [])
    as (analysis & Hrun & _ & _ & Hdrop).
  exists analysis. split; [exact Hrun|].
  apply (Hdrop [0%nat] [1%nat] (mkNode None (Some [leaf "D"; leaf "E"])));
    reflexivity.
Defined.

(** C10: the child counts depend on the shape of the tree only: they count
    every immediate child and every strict descendant, named or not, and the
    entry of a visited node carries these counts of the whole subtree below
    it, dropped nodes included. *)
Theorem child_counts_ignore_names :
  (forall node d,
      (count_children_recursive node d).2 = Z.of_nat (length (child_list node)) /\
      (count_children_recursive node d).1 = Z.of_nat (length (all_nodes node)) - 1) /\
  (forall node node' d d',
      shape node = shape node' ->
      count_children_recursive node d = count_children_recursive node' d') /\
  (forall root rest,
      exists analysis,
        analyze_hierarchy (root :: rest) = Some analysis /\
        Forall2
          (fun path e =>
             exists node, subtree_at root path = Some node /\
                          direct_children e = Z.of_nat (length (child_list node)) /\
                          total_children e = Z.of_nat (length (all_nodes node)) - 1)
          (visited_paths root) analysis).
Proof.
  split; [|split].
  - intros node d. split.
    + apply count_children_recursive_direct.
    + apply count_children_recursive_total.
  - intros node node' d d'. apply count_children_recursive_shape.
  - intros root rest. eexists. split; [done|].
    eapply Forall2_impl; [apply analyze_node_entries|].
    intros path e (node & Hnode & He). exists node. split; [done|].
    apply metrics_of_fields in He as (_ & _ & Hdirect & Htotal & _).
    by rewrite Hdirect, Htotal, count_children_recursive_direct,
      count_children_recursive_total.
Qed.

Lemma child_counts_ignore_names_witness :
  shape malformed_example
  = shape (mkNode (Some "A") (Some [mkNode (Some "B") (Some [leaf "D"; leaf "E"]); leaf "C"])) /\
  count_children_recursive malformed_example 0
  = count_children_recursive
      (mkNode (Some "A") (Some [mkNode (Some "B") (Some [leaf "D"; leaf "E"]); leaf "C"])) 0.
Proof.
  split; [reflexivity|].
  apply (proj1 (proj2 child_counts_ignore_names)). reflexivity.
Defined.

(** ** The list of all predicates *)

Lemma omap_concat {A B} (f : A -> option B) (ls : list (list A)) :
  omap f (concat ls) = concat (map (omap f) ls).
Proof.
  induction ls as [|l ls IH]; [done|]. cbn [concat map].
  by rewrite omap_app, IH.
Qed.

(** [extract_all_predicates] collects the names of all nodes that have one,
    wherever they are in the tree. *)
Lemma extract_all_predicates_all_nodes node d :
  extract_all_predicates node d = omap node_name (all_nodes node).
Proof.
  revert d. induction node as [nm|nm children IH] using Node_forest_ind; intros d.
  - by destruct nm.
  - cbn [extract_all_predicates all_nodes].
    rewrite (fold_left_append _ (fun child => extract_all_predicates child (d + 1)))
      by (apply Forall_forall; by intros).
    assert (concat (map (fun child => extract_all_predicates child (d + 1)) children)
            = omap node_name (concat (map all_nodes children))) as ->.
    { rewrite omap_concat. f_equal.
      induction IH as [|c cs Hc _ IHcs]; [done|]. cbn [map]. by rewrite Hc, IHcs. }
    by destruct nm.
Qed.

Lemma omap_length_all {A B} (f : A -> option B) (l : list A) :
  Forall (fun x => is_Some (f x)) l -> length (omap f l) = length l.
Proof.
  induction 1 as [|x l [y Hy] _ IH]; [done|]. cbn. rewrite Hy. cbn. by rewrite IH.
Qed.

Lemma subtree_at_all_nodes root path node :
  subtree_at root path = Some node ->
  node ∈ all_nodes root /\ (length (all_nodes node) <= length (all_nodes root))%nat.
Proof.
  revert root. induction path as [|i path IH]; intros root Hnode.
  - injection Hnode as ->. split; [|done].
    destruct node as [nm [children|]]; apply list_elem_of_here.
  - cbn [subtree_at] in Hnode.
    destruct (child_list root !! i) as [child|] eqn:Hchild; [|done].
    destruct (IH child Hnode) as [Hin Hlen].
    destruct root as [nm [children|]]; [|done].
    cbn [child_list node_children] in Hchild. cbn [all_nodes length].
    apply list_elem_of_split_length in Hchild as (pre & post & -> & _).
    rewrite map_app, concat_app, length_app. cbn [map concat]. rewrite length_app.
    split; [|lia].
    apply list_elem_of_further, elem_of_app. right. apply elem_of_app. by left.
Qed.

(** ** Quotients of counts *)

Lemma Qc_of_Z_pos n : 0 < n -> (0 < Qc_of_Z n)%Qc.
Proof. intros Hn. rewrite <- Z2Qc_inj_0. by apply (proj1 (Z2Qc_inj_lt 0 n)). Qed.

Lemma Qc_quotient_nonneg t n :
  0 <= t -> 0 < n -> (0 <= Qc_of_Z t / Qc_of_Z n)%Qc.
Proof.
  intros Ht Hn. unfold Qcdiv. apply Qcmult_nonneg_nonneg.
  - rewrite <- Z2Qc_inj_0. by apply (proj1 (Z2Qc_inj_le 0 t)).
  - apply Qclt_le_weak, Qcinv_pos, Qc_of_Z_pos, Hn.
Qed.

Lemma Qc_quotient_le_1 t n :
  t <= n -> 0 < n -> (Qc_of_Z t / Qc_of_Z n <= 1)%Qc.
Proof.
  intros Ht Hn. pose proof (Qc_of_Z_pos n Hn) as Hpos.
  rewrite <- (Qcmult_inv_r (Qc_of_Z n)) by (intros Heq; rewrite Heq in Hpos; by apply Qclt_not_eq in Hpos).
  unfold Qcdiv. apply Qcmult_le_compat_r.
  - by apply (proj1 (Z2Qc_inj_le t n)).
  - apply Qclt_le_weak, Qcinv_pos, Hpos.
Qed.

(** ** Metrics of an analyzed node *)

(** An analysis that has an entry was run on a root that has a name, so the
    list of all predicates was not empty. *)
Lemma analysis_nonempty_predicates root rest analysis e :
  analyze_hierarchy (root :: rest) = Some analysis ->
  e ∈ analysis ->
  (0 < length (extract_all_predicates root 0))%nat.
Proof.
  intros [= <-] He. destruct root as [[nm|] children].
  - rewrite extract_all_predicates_all_nodes. cbn. lia.
  - by apply elem_of_nil in He.
Qed.

Lemma analysis_coverage_ratio root rest analysis e :
  analyze_hierarchy (root :: rest) = Some analysis ->
  e ∈ analysis ->
  coverage_ratio e
  = (Qc_of_Z (total_children e)
     / Qc_of_Z (Z.of_nat (length (extract_all_predicates root 0))))%Qc.
Proof.
  intros Hrun He.
  pose proof (analysis_nonempty_predicates _ _ _ _ Hrun He) as Hlen.
  destruct (analysis_entry_origin _ _ _ _ Hrun He) as (path & node & _ & _ & Hm).
  apply metrics_of_fields in Hm as (_ & _ & _ & _ & Hcov & _).
  rewrite Hcov. by destruct (extract_all_predicates root 0); [simpl in Hlen; lia|].
Qed.

Lemma analysis_total_children root rest analysis e :
  analyze_hierarchy (root :: rest) = Some analysis ->
  e ∈ analysis ->
  0 <= total_children e <= Z.of_nat (length (all_nodes root)) - 1.
Proof.
  intros Hrun He.
  destruct (analysis_entry_origin _ _ _ _ Hrun He) as (path & node & _ & Hnode & Hm).
  apply metrics_of_fields in Hm as (_ & _ & _ & Htotal & _).
  rewrite Htotal, count_children_recursive_total.
  apply subtree_at_all_nodes in Hnode as [_ Hle].
  pose proof (all_nodes_length_pos node). lia.
Qed.

(** The first entry of the analysis is the entry of the root. *)
Lemma analysis_root_entry root rest e tail :
  analyze_hierarchy (root :: rest) = Some (e :: tail) ->
  total_children e = Z.of_nat (length (all_nodes root)) - 1.
Proof.
  intros [= Hrun]. rewrite analyze_node_preorder in Hrun.
  destruct (metrics_of _ root 0) as [e'|] eqn:Hm; [|done].
  injection Hrun as -> _.
  apply metrics_of_fields in Hm as (_ & _ & _ & Htotal & _).
  by rewrite Htotal, count_children_recursive_total.
Qed.

(** ** Efficiency *)

(** C1, as the code has it: at a depth above 0 the efficiency of an analyzed
    node is its [total_children] divided by [depth + 1]; at depth 0 (the
    root) it is [total_children] itself. *)
Theorem efficiency_formula (root : Node) (rest : list Node)
    (analysis : list NodeMetrics) (e : NodeMetrics) :
  analyze_hierarchy (root :: rest) = Some analysis ->
  e ∈ analysis ->
  0 <= depth e /\
  (0 < depth e ->
   efficiency e = (Qc_of_Z (total_children e) / Qc_of_Z (depth e + 1))%Qc) /\
  (depth e = 0 -> efficiency e = Qc_of_Z (total_children e)).
Proof.
  intros Hrun He.
  destruct (analysis_entry_origin _ _ _ _ Hrun He) as (path & node & _ & _ & Hm).
  apply metrics_of_fields in Hm as (_ & Hdepth & _ & _ & _ & Heff & _).
  rewrite Heff, Hdepth. split; [lia|]. split; intros Hd.
  - by rewrite (proj2 (Z.gtb_lt _ _)) by lia.
  - destruct (Z.gtb_spec (Z.of_nat (length path)) 0); [lia|done].
Qed.

Lemma efficiency_formula_witness :
  exists analysis e,
    analyze_hierarchy [worked_example] = Some analysis /\
    analysis !! 1%nat = Some e /\
    name e = "B"%string /\
    efficiency e = (Qc_of_Z (total_children e) / Qc_of_Z (depth e + 1))%Qc.
Proof.
  eexists _, _. split; [reflexivity|]. split; [reflexivity|]. split; [reflexivity|].
  refine (proj1 (proj2 (efficiency_formula worked_example [] _ _ eq_refl _)) _).
  - apply list_elem_of_lookup_2 with 1%nat. reflexivity.
  - reflexivity.
Defined.

(** In the worked example, [B] (depth 1, five children in total) gets the
    efficiency 5/2, which is neither 5 nor [total_children / depth]. *)
Lemma efficiency_not_total_over_depth :
  exists a b tail,
    analyze_hierarchy [worked_example] = Some (a :: b :: tail) /\
    name b = "B"%string /\
    depth b = 1 /\
    total_children b = 5 /\
    efficiency b = Q2Qc (5 # 2) /\
    efficiency b <> (Qc_of_Z (total_children b) / Qc_of_Z (depth b))%Qc.
Proof.
  eexists _, _, _. split; [reflexivity|]. do 4 (split; [reflexivity|]).
  intros Heq. apply (f_equal this) in Heq. vm_compute in Heq. discriminate.
Qed.

(** ** Coverage ratio *)

(** C2, as the code has it: the denominator of every coverage ratio of a run
    is the length of the list computed once by [extract_all_predicates], and
    that list holds the name of every node of the tree that has one.  Only
    the nameless nodes themselves are missing from it; a named node below a
    nameless node is counted. *)
Theorem coverage_denominator (root : Node) (rest : list Node)
    (analysis : list NodeMetrics) :
  analyze_hierarchy (root :: rest) = Some analysis ->
  extract_all_predicates root 0 = omap node_name (all_nodes root) /\
  (forall path node nm,
      subtree_at root path = Some node ->
      node_name node = Some nm ->
      nm ∈ extract_all_predicates root 0) /\
  (forall e,
      e ∈ analysis ->
      coverage_ratio e
      = (Qc_of_Z (total_children e)
         / Qc_of_Z (Z.of_nat (length (extract_all_predicates root 0))))%Qc).
Proof.
  intros Hrun. split; [apply extract_all_predicates_all_nodes|]. split.
  - intros path node nm Hnode Hnm. rewrite extract_all_predicates_all_nodes.
    apply list_elem_of_omap. exists node. split; [|done].
    by apply subtree_at_all_nodes in Hnode as [? _].
  - intros e He. by eapply analysis_coverage_ratio.
Qed.

Lemma coverage_denominator_witness :
  exists analysis,
    analyze_hierarchy [malformed_example] = Some analysis /\
    "D"%string ∈ extract_all_predicates malformed_example 0.
Proof.
  eexists. split; [reflexivity|].
  refine (proj1 (proj2 (coverage_denominator malformed_example [] _ eq_refl))
            [0%nat; 0%nat] (leaf "D") "D"%string _ _); reflexivity.
Defined.

(** For [A -> [B(no name), C]] with [B -> [D, E]] the list of predicates is
    [A, D, E, C]: the coverage ratio of [A] is 4/4, not 4/2. *)
Lemma coverage_denominator_includes_dropped_subtree :
  extract_all_predicates malformed_example 0
  = ["A"; "D"; "E"; "C"]%string /\
  exists a tail,
    analyze_hierarchy [malformed_example] = Some (a :: tail) /\
    name a = "A"%string /\
    total_children a = 4 /\
    coverage_ratio a = Q2Qc (4 # 4) /\
    coverage_ratio a <> (Qc_of_Z (total_children a) / Qc_of_Z 2)%Qc.
Proof.
  split; [reflexivity|]. eexists _, _. split; [reflexivity|].
  do 2 (split; [reflexivity|]). split.
  - apply Qc_is_canon. reflexivity.
  - intros Heq. apply (f_equal this) in Heq. vm_compute in Heq. discriminate.
Qed.

(** C9, as the code has it: the coverage ratio of an analyzed node is its
    [total_children] over the number of nodes that have a name, and is never
    negative; the ratio of the root is (number of nodes - 1) over that
    number.  When every node of the tree has a name, all ratios are at most
    1 and the ratio of the root is (number of nodes - 1) / (number of
    nodes). *)
Theorem coverage_ratio_bounds (root : Node) (rest : list Node)
    (analysis : list NodeMetrics) :
  analyze_hierarchy (root :: rest) = Some analysis ->
  let named := Z.of_nat (length (omap node_name (all_nodes root))) in
  let nodes := Z.of_nat (length (all_nodes root)) in
  (forall e, e ∈ analysis ->
     coverage_ratio e = (Qc_of_Z (total_children e) / Qc_of_Z named)%Qc /\
     (0 <= coverage_ratio e)%Qc) /\
  (forall e tail, analysis = e :: tail ->
     coverage_ratio e = (Qc_of_Z (nodes - 1) / Qc_of_Z named)%Qc) /\
  (all_named root ->
     (forall e, e ∈ analysis -> (coverage_ratio e <= 1)%Qc) /\
     exists e tail, analysis = e :: tail /\
       coverage_ratio e = (Qc_of_Z (nodes - 1) / Qc_of_Z nodes)%Qc).
Proof.
  intros Hrun named nodes.
  assert (forall e, e ∈ analysis ->
            coverage_ratio e = (Qc_of_Z (total_children e) / Qc_of_Z named)%Qc /\
            0 < named /\ 0 <= total_children e <= nodes - 1) as Hentry.
  { intros e He. subst named nodes.
    rewrite <- (extract_all_predicates_all_nodes root 0).
    split; [by eapply analysis_coverage_ratio|]. split.
    - pose proof (analysis_nonempty_predicates _ _ _ _ Hrun He). lia.
    - by eapply analysis_total_children. }
  assert (forall e tail, analysis = e :: tail ->
            coverage_ratio e = (Qc_of_Z (nodes - 1) / Qc_of_Z named)%Qc) as Hroot.
  { intros e tail ->. destruct (Hentry e) as (-> & _); [apply list_elem_of_here|].
    subst nodes. by rewrite (analysis_root_entry _ _ _ _ Hrun). }
  split; [|split; [exact Hroot|]].
  - intros e He. destruct (Hentry e He) as (Hcov & Hnamed & Htotal).
    split; [done|]. rewrite Hcov. apply Qc_quotient_nonneg; lia.
  - intros Hall.
    assert (named = nodes) as Heq
      by (subst named nodes; f_equal; by apply omap_length_all).
    split.
    + intros e He. destruct (Hentry e He) as (Hcov & Hnamed & Htotal).
      rewrite Hcov. apply Qc_quotient_le_1; lia.
    + destruct analysis as [|e tail].
      * exfalso. injection Hrun as Hrun. destruct root as [[nm|] children].
        -- rewrite analyze_node_named, analyze_node_children in Hrun.
           cbn [app] in Hrun. discriminate.
        -- apply Forall_inv in Hall. by destruct Hall.
      * exists e, tail. split; [done|]. rewrite (Hroot e tail eq_refl).
        by rewrite Heq.
Qed.

Lemma coverage_ratio_bounds_witness :
  all_named worked_example /\
  exists analysis e tail,
    analyze_hierarchy [worked_example] = Some analysis /\
    analysis = e :: tail /\
    coverage_ratio e = (Qc_of_Z (8 - 1) / Qc_of_Z 8)%Qc.
Proof.
  assert (all_named worked_example) as Hall
    by (unfold all_named; cbn; repeat (constructor; [by eexists|]); constructor).
  split; [exact Hall|].
  destruct (proj2 (proj2 (coverage_ratio_bounds worked_example [] _ eq_refl)) Hall)
    as (_ & e & tail & Heq & Hcov).
  eexists _, e, tail. split; [reflexivity|]. split; [exact Heq|exact Hcov].
Defined.

(** A root with two nameless children: three nodes, one name.  The coverage
    ratio of the root is 2/1, above 1 and different from (3 - 1) / 3. *)
Lemma coverage_ratio_above_one :
  exists a,
    analyze_hierarchy [nameless_children_example] = Some [a] /\
    total_children a = 2 /\
    coverage_ratio a = Q2Qc 2 /\
    ~ (coverage_ratio a <= 1)%Qc /\
    coverage_ratio a
    <> (Qc_of_Z (Z.of_nat (length (all_nodes nameless_children_example)) - 1)
        / Qc_of_Z (Z.of_nat (length (all_nodes nameless_children_example))))%Qc.
Proof.
  eexists. split; [reflexivity|]. split; [reflexivity|]. split; [|split].
  - apply Qc_is_canon. reflexivity.
  - intros Hle. vm_compute in Hle. by apply Hle.
  - intros Heq. apply (f_equal this) in Heq. vm_compute in Heq. discriminate.
Qed.

(** ** Sorting by efficiency *)

Lemma Qc_ltb_true x y : Qc_ltb x y = true <-> (x < y)%Qc.
Proof.
  unfold Qc_ltb. rewrite Qclt_alt. destruct (x ?= y)%Qc; split; congruence.
Qed.

Lemma Qc_ltb_false x y : Qc_ltb x y = false <-> (y <= x)%Qc.
Proof.
  rewrite <- not_true_iff_false, Qc_ltb_true. split.
  - apply Qcnot_lt_le.
  - apply Qcle_not_lt.
Qed.

Section SortReverseFacts.
Context {A : Type} (key : A -> Qc).

Lemma insert_reverse_perm x l : insert_reverse key x l ≡ₚ x :: l.
Proof.
  induction l as [|y l IH]; cbn [insert_reverse]; [done|].
  destruct (Qc_ltb (key x) (key y)); [|done].
  by rewrite IH, Permutation_swap.
Qed.

Lemma sort_reverse_perm l : sort_reverse key l ≡ₚ l.
Proof.
  induction l as [|x l IH]; [done|].
  cbn [sort_reverse foldr]. fold (sort_reverse key l).
  by rewrite insert_reverse_perm, IH.
Qed.

Lemma insert_reverse_sorted x l :
  StronglySorted (descending_by key) l -> StronglySorted (descending_by key) (insert_reverse key x l).
Proof.
  induction 1 as [|y l Hsorted IH Hy]; cbn [insert_reverse].
  - repeat constructor.
  - destruct (Qc_ltb (key x) (key y)) eqn:Hlt.
    + constructor; [done|]. rewrite insert_reverse_perm. constructor; [|done].
      apply Qc_ltb_true in Hlt. by apply Qclt_le_weak.
    + apply Qc_ltb_false in Hlt. constructor; [by constructor|].
      constructor; [done|]. eapply Forall_impl; [exact Hy|].
      intros z Hz. unfold descending_by in *. by eapply Qcle_trans.
Qed.

Lemma sort_reverse_sorted l : StronglySorted (descending_by key) (sort_reverse key l).
Proof.
  induction l as [|x l IH]; [constructor|].
  cbn [sort_reverse foldr]. by apply insert_reverse_sorted.
Qed.

(** Inserting never moves an element across one with the same key. *)
Lemma insert_reverse_stable q x l :
  filter (fun a => key a = q) (insert_reverse key x l)
  = filter (fun a => key a = q) (x :: l).
Proof.
  induction l as [|y l IH]; cbn [insert_reverse]; [done|].
  destruct (Qc_ltb (key x) (key y)) eqn:Hlt; [|done].
  apply Qc_ltb_true, Qclt_not_eq in Hlt.
  rewrite (filter_cons _ y), IH, !filter_cons.
  repeat case_decide; congruence.
Qed.

Lemma sort_reverse_stable q l :
  filter (fun a => key a = q) (sort_reverse key l) = filter (fun a => key a = q) l.
Proof.
  induction l as [|x l IH]; [done|].
  cbn [sort_reverse foldr]. fold (sort_reverse key l).
  by rewrite insert_reverse_stable, !filter_cons, IH.
Qed.

(** A list that is already in order is left as it is. *)
Lemma sort_reverse_id l : StronglySorted (descending_by key) l -> sort_reverse key l = l.
Proof.
  induction 1 as [|x l Hsorted IH Hx]; [done|].
  cbn [sort_reverse foldr]. fold (sort_reverse key l). rewrite IH.
  destruct l as [|y l]; [done|]. cbn [insert_reverse].
  apply Forall_inv in Hx. by rewrite (proj2 (Qc_ltb_false _ _) Hx).
Qed.
End SortReverseFacts.

(** ** Parent selector *)

Lemma is_candidate_true min_children max_depth e :
  is_candidate min_children max_depth e = true <->
  has_children e = true /\ min_children <= total_children e /\
  depth e <= max_depth /\ name e <> "related_to"%string.
Proof.
  unfold is_candidate.
  rewrite !andb_true_iff, negb_true_iff, Z.geb_le, Z.leb_le, String.eqb_neq.
  tauto.
Qed.

Lemma list_filter_bool {A} (f : A -> bool) (l : list A) :
  List.filter f l = filter (fun x => f x = true) l.
Proof.
  induction l as [|x l IH]; [done|]. cbn [List.filter]. rewrite filter_cons, IH.
  destruct (f x); by case_decide.
Qed.

(** C4: the output of [find_optimal_parents] is a rearrangement of the
    entries that pass the filter: an entry is in the output exactly when it
    is in the input, has children, has at least [min_children] descendants,
    lies at depth at most [max_depth] and is not named [related_to]; so
    [related_to] is in no output, whatever the thresholds. *)
Theorem find_optimal_parents_filter (analysis : list NodeMetrics)
    (min_children max_depth : Z) :
  find_optimal_parents analysis min_children max_depth
    ≡ₚ List.filter (is_candidate min_children max_depth) analysis /\
  (forall e,
      e ∈ find_optimal_parents analysis min_children max_depth <->
      e ∈ analysis /\ has_children e = true /\ min_children <= total_children e /\
      depth e <= max_depth /\ name e <> "related_to"%string) /\
  (forall e,
      e ∈ find_optimal_parents analysis min_children max_depth ->
      name e <> "related_to"%string).
Proof.
  assert (forall e,
      e ∈ find_optimal_parents analysis min_children max_depth <->
      e ∈ analysis /\ has_children e = true /\ min_children <= total_children e /\
      depth e <= max_depth /\ name e <> "related_to"%string) as Hiff.
  { intros e. unfold find_optimal_parents.
    rewrite sort_reverse_perm, list_elem_of_In, filter_In, <- list_elem_of_In.
    by rewrite is_candidate_true. }
  split; [apply sort_reverse_perm|]. split; [exact Hiff|].
  intros e He. by apply Hiff in He as (_ & _ & _ & _ & ?).
Qed.

Lemma find_optimal_parents_filter_witness :
  sample_entry "affects" 1 40 20 ∈ find_optimal_parents sample_metrics 5 3 /\
  name (sample_entry "affects" 1 40 20) <> "related_to"%string.
Proof.
  assert (sample_entry "affects" 1 40 20 ∈ find_optimal_parents sample_metrics 5 3)
    as Hin by (apply list_elem_of_lookup_2 with 0%nat; reflexivity).
  split; [exact Hin|].
  exact (proj2 (proj2 (find_optimal_parents_filter sample_metrics 5 3)) _ Hin).
Defined.

(** C5: the output of [find_optimal_parents] is in descending order of
    efficiency, and the sort is stable: for every efficiency value, the
    output entries with that efficiency are the input entries that pass the
    filter and have that efficiency, in the order of the input. *)
Theorem find_optimal_parents_sorted_stable (analysis : list NodeMetrics)
    (min_children max_depth : Z) :
  let output := find_optimal_parents analysis min_children max_depth in
  StronglySorted (descending_by efficiency) output /\
  forall q,
    filter (fun e => efficiency e = q) output
    = filter (fun e => efficiency e = q /\
                       is_candidate min_children max_depth e = true) analysis.
Proof.
  intros output. split.
  - apply sort_reverse_sorted.
  - intros q. unfold output, find_optimal_parents.
    by rewrite sort_reverse_stable, list_filter_bool, list_filter_filter.
Qed.

(** When every entry passes the filter and the list is already in
    descending order of efficiency, [find_optimal_parents] returns it
    unchanged. *)
Lemma find_optimal_parents_id analysis min_children max_depth :
  Forall (fun e => is_candidate min_children max_depth e = true) analysis ->
  StronglySorted (descending_by efficiency) analysis ->
  find_optimal_parents analysis min_children max_depth = analysis.
Proof.
  intros Hall Hsorted. unfold find_optimal_parents.
  rewrite forallb_filter_id; [by apply sort_reverse_id|].
  apply forallb_forall. intros e He%list_elem_of_In.
  by apply (proj1 (Forall_forall _ _) Hall).
Qed.

(** ** Set builder *)

Lemma take_filter_first_matching k keep l :
  take k (List.filter keep l) = first_matching k keep l.
Proof.
  revert k. induction l as [|x l IH]; intros k; cbn [List.filter first_matching].
  - by destruct k.
  - destruct k as [|k].
    + by destruct (keep x).
    + destruct (keep x); [|apply IH]. cbn [take]. by rewrite IH.
Qed.

Lemma first_matching_all k l : first_matching k (fun _ => true) l = take k l.
Proof. revert k. induction l as [|x l IH]; intros [|k]; cbn; by rewrite ?IH. Qed.

Lemma first_matching_sublist k keep l : first_matching k keep l `sublist_of` l.
Proof.
  revert k. induction l as [|x l IH]; intros k; cbn [first_matching]; [done|].
  destruct k as [|k]; [apply sublist_nil_l|].
  destruct (keep x); [by apply sublist_skip|by apply sublist_cons].
Qed.

Lemma first_matching_keep k keep l : Forall (fun x => keep x = true) (first_matching k keep l).
Proof.
  revert k. induction l as [|x l IH]; intros k; cbn [first_matching]; [done|].
  destruct k as [|k]; [done|].
  destruct (keep x) eqn:Hx; [by constructor|apply IH].
Qed.

Lemma first_matching_length k keep l : (length (first_matching k keep l) <= k)%nat.
Proof.
  revert k. induction l as [|x l IH]; intros k; cbn [first_matching]; [cbn; lia|].
  destruct k as [|k]; [done|].
  destruct (keep x); [cbn; specialize (IH k); lia|specialize (IH (S k)); lia].
Qed.

Lemma build_sets_lookup optimal_parents :
  let sets := build_sets optimal_parents in
  sets !! "comprehensive"%string = Some (map name (take 5 optimal_parents)) /\
  sets !! "focused"%string =
    Some (map name (first_matching 8
            (fun p => bool_decide (20 <= total_children p <= 50)) optimal_parents)) /\
  sets !! "minimal"%string =
    Some (map name (first_matching 6
            (fun p => bool_decide (5 <= total_children p <= 20)) optimal_parents)) /\
  sets !! "high_level"%string =
    Some (map name (first_matching 6
            (fun p => bool_decide (depth p <= 2)) optimal_parents)) /\
  forall key, key ∉ ["comprehensive"; "focused"; "minimal"; "high_level"]%string ->
              sets !! key = None.
Proof.
  intros sets. subst sets. unfold build_sets.
  rewrite !take_filter_first_matching.
  assert (forall lo hi, List.filter (fun p => (lo <=? total_children p) && (total_children p <=? hi)) optimal_parents
            = List.filter (fun p => bool_decide (lo <= total_children p <= hi)) optimal_parents) as Hrange.
  { intros lo hi. apply filter_ext. intros p.
    destruct (Z.leb_spec lo (total_children p)), (Z.leb_spec (total_children p) hi);
      cbn; symmetry; ((apply bool_decide_eq_true; lia) || (apply bool_decide_eq_false; lia)). }
  assert (List.filter (fun p => depth p <=? 2) optimal_parents
          = List.filter (fun p => bool_decide (depth p <= 2)) optimal_parents) as Hdepth.
  { apply filter_ext. intros p. destruct (Z.leb_spec (depth p) 2);
      symmetry; ((apply bool_decide_eq_true; lia) || (apply bool_decide_eq_false; lia)). }
  rewrite <- !take_filter_first_matching, <- !Hrange, <- Hdepth.
  do 4 (split; [reflexivity|]).
  intros key Hkey. rewrite !not_elem_of_cons in Hkey.
  destruct Hkey as (? & ? & ? & ? & _).
  rewrite !lookup_insert_ne by done. apply lookup_empty.
Qed.

(** C6: the computed strategy maps [comprehensive] to the names of the first
    five optimal parents, [focused] to the names of the first eight with
    [total_children] in [20, 50], [minimal] to the names of the first six
    with [total_children] in [5, 20], and [high_level] to the names of the
    first six at depth at most 2.  Every list follows the order of the
    optimal parents, and [create_predicate_sets] builds the sets from the
    optimal parents found with [min_children = 10] and [max_depth = 2]. *)
Theorem build_sets_spec (optimal_parents : list NodeMetrics) :
  let sets := build_sets optimal_parents in
  sets !! "comprehensive"%string = Some (map name (take 5 optimal_parents)) /\
  sets !! "focused"%string =
    Some (map name (first_matching 8
            (fun p => bool_decide (20 <= total_children p <= 50)) optimal_parents)) /\
  sets !! "minimal"%string =
    Some (map name (first_matching 6
            (fun p => bool_decide (5 <= total_children p <= 20)) optimal_parents)) /\
  sets !! "high_level"%string =
    Some (map name (first_matching 6
            (fun p => bool_decide (depth p <= 2)) optimal_parents)) /\
  (forall key names,
      sets !! key = Some names ->
      exists chosen,
        chosen `sublist_of` optimal_parents /\ names = map name chosen) /\
  (forall analysis,
      create_predicate_sets analysis
      = build_sets (find_optimal_parents analysis 10 2)).
Proof.
  intros sets.
  destruct (build_sets_lookup optimal_parents)
    as (Hcomprehensive & Hfocused & Hminimal & Hhigh & Hother).
  fold sets in Hcomprehensive, Hfocused, Hminimal, Hhigh, Hother.
  do 4 (split; [done|]). split; [|done].
  intros key names Hkey.
  destruct (decide (key ∈ ["comprehensive"; "focused"; "minimal"; "high_level"]%string))
    as [Hin|Hout]; [|by rewrite (Hother key Hout) in Hkey].
  rewrite !elem_of_cons in Hin.
  destruct Hin as [->|[->|[->|[->|[]%elem_of_nil]]]]; eexists;
    (split; [|by simplify_eq]).
  - rewrite <- first_matching_all. apply first_matching_sublist.
  - apply first_matching_sublist.
  - apply first_matching_sublist.
  - apply first_matching_sublist.
Qed.

Lemma build_sets_spec_witness :
  exists chosen,
    chosen `sublist_of` ten_parents /\
    ["p1"; "p2"; "p3"; "p5"; "p6"; "p7"; "p8"]%string = map name chosen.
Proof.
  apply (proj1 (proj2 (proj2 (proj2 (proj2 (build_sets_spec ten_parents)))))
           "focused"%string).
  reflexivity.
Defined.

(** ** The examples of the specification *)

Example worked_example_names :
  (map name <$> analyze_hierarchy [worked_example])
  = Some ["A"; "B"; "D"; "E"; "F"; "G"; "H"; "C"]%string.
Proof. reflexivity. Qed.

Example worked_example_counts :
  (map (fun e => (total_children e, direct_children e, depth e, has_children e))
     <$> analyze_hierarchy [worked_example])
  = Some [ (7, 2, 0, true); (5, 5, 1, true);
           (0, 0, 2, false); (0, 0, 2, false); (0, 0, 2, false);
           (0, 0, 2, false); (0, 0, 2, false); (0, 0, 1, true) ].
Proof. reflexivity. Qed.

Example worked_example_optimal_parents :
  ((fun analysis => map name (find_optimal_parents analysis 1 3))
     <$> analyze_hierarchy [worked_example])
  = Some ["A"; "B"]%string.
Proof. reflexivity. Qed.

Example malformed_example_names :
  (map name <$> analyze_hierarchy [malformed_example]) = Some ["A"; "C"]%string.
Proof. reflexivity. Qed.

Example malformed_example_root_counts :
  (map (fun e => (total_children e, direct_children e))
     <$> analyze_hierarchy [malformed_example])
  = Some [(4, 2); (0, 0)].
Proof. reflexivity. Qed.

Example sample_metrics_optimal_parents :
  map name (find_optimal_parents sample_metrics 5 3)
  = ["affects"; "interacts_with"; "regulates"]%string.
Proof. reflexivity. Qed.

Example ten_parents_comprehensive :
  build_sets ten_parents !! "comprehensive"%string
  = Some ["p0"; "p1"; "p2"; "p3"; "p4"]%string /\
  create_predicate_sets ten_parents = build_sets ten_parents.
Proof.
  split; [reflexivity|]. unfold create_predicate_sets.
  rewrite find_optimal_parents_id; [done| |].
  - repeat (constructor; [reflexivity|]). constructor.
  - repeat (constructor; [|repeat (constructor; [by vm_compute|]); constructor]).
    constructor.
Qed.

(** ** Tree source loader: searching the text *)

Lemma starts_with_prefix sub s : starts_with sub s = true <-> sub `prefix_of` s.
Proof.
  revert s. induction sub as [|c sub IH]; intros s; cbn [starts_with].
  - split; [intros _; apply prefix_nil|done].
  - destruct s as [|d s].
    + split; [done|]. by intros ?%prefix_nil_not.
    + rewrite andb_true_iff, Ascii.eqb_eq, IH. split.
      * intros [-> ?]. by apply prefix_cons.
      * intros Hpre. split.
        -- by apply prefix_cons_inv_1 in Hpre.
        -- by apply prefix_cons_inv_2 in Hpre.
Qed.

(** [find_at] returns the lowest index of an occurrence, counted from [i],
    or [-1] when there is none. *)
Lemma find_at_spec sub s i :
  0 <= i ->
  (find_at sub s i = -1 /\ forall j, ~ occurs_at sub s j) \/
  (exists n : nat,
      find_at sub s i = i + Z.of_nat n /\
      occurs_at sub s n /\
      forall j, (j < n)%nat -> ~ occurs_at sub s j).
Proof.
  revert i. induction s as [|d s IH]; intros i Hi; cbn [find_at].
  - destruct (starts_with sub []) eqn:Hsw.
    + right. exists 0%nat. split; [lia|]. split; [|lia].
      by apply starts_with_prefix.
    + left. split; [done|]. intros j Hj. unfold occurs_at in Hj.
      rewrite drop_nil in Hj. apply starts_with_prefix in Hj.
      rewrite Hsw in Hj. discriminate.
  - destruct (starts_with sub (d :: s)) eqn:Hsw.
    + right. exists 0%nat. split; [lia|]. split; [|lia].
      by apply starts_with_prefix.
    + assert (~ occurs_at sub (d :: s) 0) as Hnot0
        by (unfold occurs_at; cbn [drop]; intros Hocc;
            apply starts_with_prefix in Hocc; rewrite Hsw in Hocc; discriminate).
      destruct (IH (i + 1)) as [[Hnone Hno]|(n & Hfound & Hocc & Hfirst)]; [lia| |].
      * left. split; [done|]. intros [|j]; [done|]. apply Hno.
      * right. exists (S n). split; [lia|]. split; [done|].
        intros [|j] Hj; [done|]. apply Hfirst. lia.
Qed.

Lemma str_find_nonneg sub s : -1 <= str_find sub s.
Proof.
  unfold str_find.
  destruct (find_at_spec sub s 0) as [[-> _]|(n & -> & _)]; lia.
Qed.

(** ** Tree source loader: the bracket counter *)

Lemma bracket_excess_app l1 l2 :
  bracket_excess (l1 ++ l2) = bracket_excess l1 + bracket_excess l2.
Proof. induction l1 as [|c l1 IH]; cbn [bracket_excess app]; lia. Qed.

(** Started with a positive count, the loop stops right after the first
    position at which the count of open brackets is back to zero. *)
Lemma find_array_end_Some chars i bracket_count end_pos :
  1 <= bracket_count ->
  find_array_end chars i bracket_count = Some end_pos ->
  exists n : nat,
    end_pos = i + Z.of_nat (S n) /\
    chars !! n = Some "]"%char /\
    bracket_count + bracket_excess (take (S n) chars) = 0 /\
    forall m, (m <= n)%nat -> 1 <= bracket_count + bracket_excess (take m chars).
Proof.
  revert i bracket_count.
  induction chars as [|c chars IH]; intros i bc Hbc Hend; [done|].
  cbn [find_array_end] in Hend.
  assert (forall bc',
            1 <= bc' ->
            bc' = bc + bracket_excess [c] ->
            find_array_end chars (i + 1) bc' = Some end_pos ->
            exists n : nat,
              end_pos = i + Z.of_nat (S n) /\
              (c :: chars) !! n = Some "]"%char /\
              bc + bracket_excess (take (S n) (c :: chars)) = 0 /\
              forall m, (m <= n)%nat -> 1 <= bc + bracket_excess (take m (c :: chars)))
    as Hstep.
  { intros bc' Hbc' Heq Hrec.
    destruct (IH _ _ Hbc' Hrec) as (n & -> & Hlast & Hzero & Hpos).
    exists (S n). split; [lia|]. split; [done|]. split.
    - change (take (S (S n)) (c :: chars)) with ([c] ++ take (S n) chars).
      rewrite bracket_excess_app. lia.
    - intros [|m] Hm; [cbn [firstn bracket_excess]; lia|].
      change (take (S m) (c :: chars)) with ([c] ++ take m chars).
      rewrite bracket_excess_app. specialize (Hpos m). lia. }
  destruct (Ascii.eqb c "[") eqn:Hopen.
  - apply (Hstep (bc + 1)); [lia| |done]. cbn [bracket_excess]. rewrite Hopen. lia.
  - destruct (Ascii.eqb c "]") eqn:Hclose.
    + destruct (bc - 1 =? 0) eqn:Hzero.
      * injection Hend as <-. apply Z.eqb_eq in Hzero. apply Ascii.eqb_eq in Hclose as ->.
        exists 0%nat. split; [lia|]. split; [done|]. split.
        -- change (take 1 ("]"%char :: chars)) with ["]"%char]. cbn. lia.
        -- intros m Hm. replace m with 0%nat by lia. cbn. lia.
      * apply Z.eqb_neq in Hzero.
        apply (Hstep (bc - 1)); [lia| |done]. cbn [bracket_excess]. rewrite Hopen, Hclose. lia.
    + apply (Hstep bc); [lia| |done]. cbn [bracket_excess]. rewrite Hopen, Hclose. lia.
Qed.

Lemma find_array_end_None chars i bracket_count :
  1 <= bracket_count ->
  find_array_end chars i bracket_count = None ->
  forall m, 1 <= bracket_count + bracket_excess (take m chars).
Proof.
  revert i bracket_count.
  induction chars as [|c chars IH]; intros i bc Hbc Hend m.
  - rewrite take_nil. cbn [bracket_excess]. lia.
  - cbn [find_array_end] in Hend. destruct m as [|m]; [cbn [firstn bracket_excess]; lia|].
    change (take (S m) (c :: chars)) with ([c] ++ take m chars).
    rewrite bracket_excess_app. cbn [bracket_excess].
    destruct (Ascii.eqb c "[") eqn:Hopen.
    + specialize (IH (i + 1) (bc + 1) ltac:(lia) Hend m). lia.
    + destruct (Ascii.eqb c "]") eqn:Hclose.
      * destruct (bc - 1 =? 0) eqn:Hzero; [done|]. apply Z.eqb_neq in Hzero.
        specialize (IH (i + 1) (bc - 1) ltac:(lia) Hend m). lia.
      * specialize (IH (i + 1) bc ltac:(lia) Hend m). lia.
Qed.

(** ** Tree source loader: what is parsed *)

Lemma first_occurrence_unique sub s i j :
  first_occurrence sub s i -> first_occurrence sub s j -> i = j.
Proof.
  intros [Hi Hi'] [Hj Hj'].
  destruct (Nat.lt_trichotomy i j) as [Hlt|[->|Hlt]]; [|done|].
  - by destruct (Hj' i Hlt).
  - by destruct (Hi' j Hlt).
Qed.

Lemma str_find_first_occurrence sub s :
  (str_find sub s = -1 /\ forall j, ~ occurs_at sub s j) \/
  (exists start : nat, str_find sub s = Z.of_nat start /\ first_occurrence sub s start).
Proof.
  unfold str_find.
  destruct (find_at_spec sub s 0) as [?|(n & Hn & Hocc & Hfirst)]; [lia|by left|].
  right. exists n. split; [lia|]. by split.
Qed.

(** Once the marker is located, the loader counts brackets from the ['[']
    that ends the marker. *)
Lemma load_hierarchy_from_html_found {Tree JSONDecodeError : Type}
    (json_loads : list ascii -> JSONDecodeError + Tree) content start :
  first_occurrence tree_data_marker content start ->
  exists rest,
    drop (start + 15) content = "["%char :: rest /\
    load_hierarchy_from_html json_loads content
    = match find_array_end rest (Z.of_nat start + 16) 1 with
      | None => inl CouldNotFindEnd
      | Some end_pos =>
          parsed json_loads
            (take (Z.to_nat end_pos - (start + 15)) ("["%char :: rest))
      end.
Proof.
  intros Hfirst.
  destruct (str_find_first_occurrence tree_data_marker content)
    as [[_ Hnone]|(start' & Hfind & Hfirst')].
  { destruct Hfirst as [Hocc _]. by destruct (Hnone start). }
  assert (start' = start) as -> by by eapply first_occurrence_unique.
  destruct Hfirst as [[tail Htail] _].
  exists tail. split.
  - rewrite <- drop_drop, Htail. done.
  - unfold load_hierarchy_from_html. rewrite Hfind.
    destruct (Z.eqb_spec (Z.of_nat start) (-1)) as [?|_]; [lia|].
    unfold slice_from, slice.
    replace (Z.to_nat (Z.of_nat start + Z.of_nat (length tree_data_assignment)))
      with (start + 15)%nat by (cbn; lia).
    rewrite <- drop_drop, Htail.
    change (drop 15 (tree_data_marker ++ tail)) with ("["%char :: tail).
    change (find_array_end ("["%char :: tail)
              (Z.of_nat start + Z.of_nat (length tree_data_assignment)) 0)
      with (find_array_end tail
              (Z.of_nat start + Z.of_nat (length tree_data_assignment) + 1) (0 + 1)).
    replace (Z.of_nat start + Z.of_nat (length tree_data_assignment) + 1)
      with (Z.of_nat start + 16) by (cbn; lia).
    change (0 + 1) with 1.
    by destruct (find_array_end tail (Z.of_nat start + 16) 1) as [end_pos|].
Qed.

Lemma bracket_excess_open chars :
  bracket_excess ("["%char :: chars) = 1 + bracket_excess chars.
Proof. done. Qed.

(** The text cut out when the loop of the loader breaks. *)
Lemma find_array_end_closes rest (start : nat) end_pos :
  find_array_end rest (Z.of_nat start + 16) 1 = Some end_pos ->
  let json_str := take (Z.to_nat end_pos - (start + 15)) ("["%char :: rest) in
  closes_first_bracket json_str /\ json_str `prefix_of` "["%char :: rest.
Proof.
  intros Hend json_str.
  destruct (find_array_end_Some rest (Z.of_nat start + 16) 1 end_pos ltac:(lia) Hend)
    as (n & -> & Hlast & Hzero & Hpos).
  assert (json_str = "["%char :: take (S n) rest) as ->.
  { subst json_str.
    by replace (Z.to_nat (Z.of_nat start + 16 + Z.of_nat (S n)) - (start + 15))%nat
      with (S (S n)) by lia. }
  pose proof (lookup_lt_Some _ _ _ Hlast) as Hn.
  assert (length (take (S n) rest) = S n) as Hlen by (rewrite length_take; lia).
  split; [split; [done|split; [|split]]|].
  - rewrite last_lookup. cbn [length pred]. rewrite Hlen.
    change (("["%char :: take (S n) rest) !! S n) with (take (S n) rest !! n).
    rewrite lookup_take_lt by lia. done.
  - rewrite bracket_excess_open. lia.
  - intros m Hm. cbn [length] in Hm. rewrite Hlen in Hm.
    destruct m as [|m]; [lia|]. cbn [take firstn].
    rewrite bracket_excess_open, take_take. replace (m `min` S n)%nat with m by lia.
    specialize (Hpos m). lia.
  - exists (drop (S n) rest). by rewrite <- (take_drop (S n) rest) at 1.
Qed.

(** Below one text there is at most one such cut. *)
Lemma closes_first_bracket_unique json_str json_str' text :
  closes_first_bracket json_str ->
  closes_first_bracket json_str' ->
  json_str `prefix_of` text ->
  json_str' `prefix_of` text ->
  json_str = json_str'.
Proof.
  assert (forall short long,
             closes_first_bracket short -> closes_first_bracket long ->
             short `prefix_of` text -> long `prefix_of` text ->
             (length short <= length long)%nat -> short = long) as Hordered.
  { intros short long (Hhead & _ & Hzero & _) (_ & _ & _ & Hmin)
           [k Hshort] [k' Hlong] Hle.
    assert (short = take (length short) long) as Htake.
    { rewrite <- (take_app_length short k) at 1. rewrite <- Hshort, Hlong.
      by rewrite take_app_le by lia. }
    destruct (decide (length short = length long)) as [Heq|Hne].
    - by rewrite Htake, Heq, firstn_all.
    - specialize (Hmin (length short)). rewrite <- Htake, Hzero in Hmin.
      destruct short; [done|]. cbn [length] in *. lia. }
  intros H1 H2 Hp1 Hp2.
  destruct (Nat.le_ge_cases (length json_str) (length json_str')).
  - by apply Hordered.
  - symmetry. by apply Hordered.
Qed.

(** The loader hands to the parser the text that starts at the ['['] of the
    first marker and closes that bracket. *)
Lemma load_hierarchy_from_html_parses {Tree JSONDecodeError : Type}
    (json_loads : list ascii -> JSONDecodeError + Tree) content start json_str :
  first_occurrence tree_data_marker content start ->
  json_str `prefix_of` drop (start + 15) content ->
  closes_first_bracket json_str ->
  load_hierarchy_from_html json_loads content = parsed json_loads json_str.
Proof.
  intros Hfirst Hprefix Hcloses.
  destruct (load_hierarchy_from_html_found json_loads content start Hfirst)
    as (rest & Hrest & ->).
  rewrite Hrest in Hprefix.
  destruct (find_array_end rest (Z.of_nat start + 16) 1) as [end_pos|] eqn:Hend.
  - destruct (find_array_end_closes _ _ _ Hend) as [Hcloses' Hprefix'].
    by rewrite (closes_first_bracket_unique _ _ _ Hcloses Hcloses' Hprefix Hprefix').
  - exfalso. destruct Hcloses as (Hhead & _ & Hzero & _).
    destruct json_str as [|c json_str]; [done|]. injection Hhead as ->.
    destruct Hprefix as [k Hk]. injection Hk as ->.
    pose proof (find_array_end_None (json_str ++ k) (Z.of_nat start + 16) 1
                  ltac:(lia) Hend (length json_str)) as Hpos.
    rewrite take_app_length in Hpos. rewrite bracket_excess_open in Hzero. lia.
Qed.

Lemma parsed_not_value_error {Tree JSONDecodeError : Type}
    (json_loads : list ascii -> JSONDecodeError + Tree) json_str :
  parsed json_loads json_str <> inl CouldNotFindTreeData /\
  parsed json_loads json_str <> inl CouldNotFindEnd.
Proof. unfold parsed. by destruct (json_loads json_str). Qed.

(** X1: the loader fails with "Could not find treeData" exactly when the
    marker [var treeData = [] occurs nowhere in the text. *)
Theorem load_missing_marker {Tree JSONDecodeError : Type}
    (json_loads : list ascii -> JSONDecodeError + Tree) (content : list ascii) :
  load_hierarchy_from_html json_loads content = inl CouldNotFindTreeData <->
  forall i, ~ occurs_at tree_data_marker content i.
Proof.
  destruct (str_find_first_occurrence tree_data_marker content)
    as [[Hfind Hnone]|(start & Hfind & Hfirst)].
  - split; [done|]. intros _. unfold load_hierarchy_from_html. by rewrite Hfind.
  - destruct (load_hierarchy_from_html_found json_loads content start Hfirst)
      as (rest & _ & ->).
    split.
    + destruct (find_array_end rest _ 1); [|done].
      intros Heq. by apply parsed_not_value_error in Heq.
    + intros Hnone. destruct Hfirst as [Hocc _]. by destruct (Hnone start).
Qed.

Lemma load_missing_marker_witness :
  load_hierarchy_from_html accept_all (String.list_ascii_of_string "<html></html>")
  = inl CouldNotFindTreeData.
Proof.
  apply load_missing_marker. intros i [k Hk].
  do 13 (destruct i as [|i]; [discriminate|]). destruct i; discriminate.
Defined.

(** X2: the loader fails with "Could not find end of treeData array"
    exactly when the marker occurs and, from the ['['] of its first
    occurrence on, every non-empty stretch of text has more opening than
    closing brackets. *)
Theorem load_missing_end {Tree JSONDecodeError : Type}
    (json_loads : list ascii -> JSONDecodeError + Tree) (content : list ascii) :
  load_hierarchy_from_html json_loads content = inl CouldNotFindEnd <->
  exists start,
    first_occurrence tree_data_marker content start /\
    forall m, (0 < m)%nat ->
              1 <= bracket_excess (take m (drop (start + 15) content)).
Proof.
  destruct (str_find_first_occurrence tree_data_marker content)
    as [[Hfind Hnone]|(start & Hfind & Hfirst)].
  - split.
    + unfold load_hierarchy_from_html. by rewrite Hfind.
    + intros (start & [Hocc _] & _). by destruct (Hnone start).
  - destruct (load_hierarchy_from_html_found json_loads content start Hfirst)
      as (rest & Hrest & ->).
    destruct (find_array_end rest (Z.of_nat start + 16) 1) as [end_pos|] eqn:Hend.
    + split; [intros Heq; by apply parsed_not_value_error in Heq|].
      intros (start' & Hfirst' & Hopen). exfalso.
      rewrite (first_occurrence_unique _ _ _ _ Hfirst' Hfirst), Hrest in Hopen.
      destruct (find_array_end_Some rest (Z.of_nat start + 16) 1 end_pos
                  ltac:(lia) Hend) as (n & _ & _ & Hzero & _).
      specialize (Hopen (S (S n)) ltac:(lia)). cbn [take firstn] in Hopen.
      rewrite bracket_excess_open in Hopen. lia.
    + split; [intros _|done]. exists start. split; [done|]. rewrite Hrest.
      intros [|m] Hm; [lia|]. cbn [take firstn]. rewrite bracket_excess_open.
      pose proof (find_array_end_None rest (Z.of_nat start + 16) 1
                    ltac:(lia) Hend m). lia.
Qed.

Lemma load_missing_end_witness :
  load_hierarchy_from_html accept_all
    (String.list_ascii_of_string "var treeData = [[1, 2]")
  = inl CouldNotFindEnd.
Proof.
  apply load_missing_end. exists 0%nat.
  split; [split; [by eexists|lia]|]. intros m Hm.
  destruct m as [|m]; [lia|].
  do 7 (destruct m as [|m]; [by vm_compute|]). by vm_compute.
Defined.

(** X3: when the loader neither misses the marker nor the end of the array,
    it returns what the parser makes of one stretch of the text: the stretch
    that begins at the ['['] of the first marker, ends with a [']'], has as
    many opening as closing brackets, and has no shorter beginning with that
    property. *)
Theorem load_outcomes {Tree JSONDecodeError : Type}
    (json_loads : list ascii -> JSONDecodeError + Tree) (content : list ascii) :
  load_hierarchy_from_html json_loads content = inl CouldNotFindTreeData \/
  load_hierarchy_from_html json_loads content = inl CouldNotFindEnd \/
  exists start json_str,
    first_occurrence tree_data_marker content start /\
    json_str `prefix_of` drop (start + 15) content /\
    closes_first_bracket json_str /\
    load_hierarchy_from_html json_loads content = parsed json_loads json_str.
Proof.
  destruct (str_find_first_occurrence tree_data_marker content)
    as [[Hfind Hnone]|(start & Hfind & Hfirst)].
  - left. unfold load_hierarchy_from_html. by rewrite Hfind.
  - right.
    destruct (load_hierarchy_from_html_found json_loads content start Hfirst)
      as (rest & Hrest & ->).
    destruct (find_array_end rest (Z.of_nat start + 16) 1) as [end_pos|] eqn:Hend;
      [right|by left].
    destruct (find_array_end_closes _ _ _ Hend) as [Hcloses Hprefix].
    eexists start, _. rewrite Hrest. done.
Qed.

(** X4: if a stretch of the text begins at the ['['] of the first marker
    and closes that bracket, the loader returns what the parser makes of
    exactly that stretch; nothing after it is looked at. *)
Theorem load_parses_closed_text {Tree JSONDecodeError : Type}
    (json_loads : list ascii -> JSONDecodeError + Tree)
    (content : list ascii) (start : nat) (json_str : list ascii) :
  first_occurrence tree_data_marker content start ->
  json_str `prefix_of` drop (start + 15) content ->
  closes_first_bracket json_str ->
  load_hierarchy_from_html json_loads content = parsed json_loads json_str.
Proof. apply load_hierarchy_from_html_parses. Qed.

Lemma load_parses_closed_text_witness :
  load_hierarchy_from_html accept_all sample_html
  = inr (String.list_ascii_of_string "[{n: [1, 2]}, []]").
Proof.
  apply (load_parses_closed_text accept_all sample_html 8).
  - split; [by eexists|]. intros j Hj [k Hk].
    do 8 (destruct j as [|j]; [discriminate|]). lia.
  - by eexists.
  - split; [done|]. split; [done|]. split; [done|]. intros m Hm.
    cbn [length String.list_ascii_of_string] in Hm.
    destruct m as [|m]; [lia|].
    do 16 (destruct m as [|m]; [by vm_compute|]). lia.
Defined.

Lemma bracket_excess_flat u :
  Forall (fun c => c <> "["%char /\ c <> "]"%char) u -> bracket_excess u = 0.
Proof.
  induction 1 as [|c u [Hopen Hclose] _ IH]; [done|]. cbn [bracket_excess].
  apply Ascii.eqb_neq in Hopen, Hclose. rewrite Hopen, Hclose. lia.
Qed.

Lemma closes_first_bracket_flat u :
  Forall (fun c => c <> "["%char /\ c <> "]"%char) u ->
  closes_first_bracket ("["%char :: u ++ ["]"%char]).
Proof.
  intros Hflat. split; [done|]. split; [|split].
  - change ("["%char :: u ++ ["]"%char]) with (("["%char :: u) ++ ["]"%char]).
    apply last_snoc.
  - rewrite bracket_excess_open, bracket_excess_app, (bracket_excess_flat u Hflat).
    done.
  - intros m Hm. cbn [length] in Hm. rewrite length_app in Hm. cbn [length] in Hm.
    destruct m as [|m]; [lia|]. cbn [take firstn].
    rewrite bracket_excess_open, take_app_le by lia.
    rewrite (bracket_excess_flat (take m u)); [lia|]. by apply Forall_take.
Qed.

(** X5: the bracket counter knows nothing of JSON strings.  Whatever stands
    between the ['['] of the marker and the next bracket, quotes included,
    if that next bracket is a [']'] the array ends there. *)
Theorem load_stops_at_first_closing_bracket {Tree JSONDecodeError : Type}
    (json_loads : list ascii -> JSONDecodeError + Tree)
    (content : list ascii) (start : nat) (u v : list ascii) :
  first_occurrence tree_data_marker content start ->
  drop (start + 15) content = "["%char :: u ++ "]"%char :: v ->
  Forall (fun c => c <> "["%char /\ c <> "]"%char) u ->
  load_hierarchy_from_html json_loads content
  = parsed json_loads ("["%char :: u ++ ["]"%char]).
Proof.
  intros Hfirst Hdrop Hflat.
  apply (load_hierarchy_from_html_parses json_loads content start); [done| |].
  - rewrite Hdrop. exists v. cbn [app]. by rewrite <- app_assoc.
  - by apply closes_first_bracket_flat.
Qed.

Lemma load_stops_at_first_closing_bracket_witness :
  load_hierarchy_from_html accept_all sample_html_quoted
  = inr (String.list_ascii_of_string "[{n: 'a]").
Proof.
  apply (load_stops_at_first_closing_bracket accept_all sample_html_quoted 0
           (String.list_ascii_of_string "{n: 'a")
           (String.list_ascii_of_string "'}, [1]];")).
  - split; [by eexists|lia].
  - reflexivity.
  - repeat (constructor; [by split|]). constructor.
Defined.

(** ** Analysis and the list of predicates *)

Lemma sublist_same_length {A} (l1 l2 : list A) :
  l1 `sublist_of` l2 -> (length l2 <= length l1)%nat -> l1 = l2.
Proof.
  induction 1 as [|x l1 l2 Hsub IH|x l1 l2 Hsub IH]; cbn [length]; intros Hlen.
  - done.
  - f_equal. apply IH. lia.
  - apply sublist_length in Hsub. lia.
Qed.

Lemma sublist_concat {A} (ls1 ls2 : list (list A)) :
  Forall2 sublist ls1 ls2 -> concat ls1 `sublist_of` concat ls2.
Proof.
  induction 1 as [|l1 l2 ls1 ls2 Hl _ IH]; [done|]. cbn [concat].
  by apply sublist_app.
Qed.

Lemma map_concat_map {A B C} (f : B -> C) (g : A -> list B) (l : list A) :
  map f (concat (map g l)) = concat (map (fun x => map f (g x)) l).
Proof. by rewrite concat_map, map_map. Qed.

Lemma omap_length_le {A B} (f : A -> option B) (l : list A) :
  (length (omap f l) <= length l)%nat.
Proof.
  induction l as [|x l IH]; [done|]. cbn. destruct (f x); cbn; lia.
Qed.

Lemma omap_length_all_inv {A B} (f : A -> option B) (l : list A) :
  length (omap f l) = length l -> Forall (fun x => is_Some (f x)) l.
Proof.
  induction l as [|x l IH]; [done|]. cbn.
  pose proof (omap_length_le f l). destruct (f x) eqn:Hx; cbn; intros Hlen.
  - constructor; [by eexists|]. apply IH. lia.
  - lia.
Qed.

(** The names listed by the analysis are among the names of all nodes, in
    the same order. *)
Lemma analyze_node_names_sublist all_predicates node d :
  map name (analyze_node all_predicates node d [])
    `sublist_of` omap node_name (all_nodes node).
Proof.
  revert d. induction node as [nm|nm children IH] using Node_forest_ind; intros d;
    rewrite analyze_node_preorder;
    destruct (metrics_of _ _ d) as [e|] eqn:Hm; try apply sublist_nil_l;
    apply metrics_of_fields in Hm as (Hname & _); cbn in Hname; subst nm.
  - repeat constructor.
  - cbn [child_list node_children all_nodes map omap list_omap node_name].
    apply sublist_skip. rewrite map_concat_map, omap_concat.
    apply sublist_concat. rewrite map_map.
    induction IH as [|c cs Hc _ IHcs]; cbn [map]; constructor; [apply Hc|done].
Qed.

Lemma analysis_names_sublist root rest analysis :
  analyze_hierarchy (root :: rest) = Some analysis ->
  map name analysis `sublist_of` extract_all_predicates root 0 /\
  (length analysis <= length (extract_all_predicates root 0))%nat /\
  (length (extract_all_predicates root 0) <= length (all_nodes root))%nat.
Proof.
  intros [= <-]. rewrite extract_all_predicates_all_nodes.
  pose proof (analyze_node_names_sublist (omap node_name (all_nodes root)) root 0)
    as Hsub.
  split; [done|]. split.
  - apply sublist_length in Hsub. by rewrite length_map in Hsub.
  - apply omap_length_le.
Qed.

(** X6: the analysis lists names from the list of all predicates, in the
    order of that list, so the "predicates analyzed" are never more than the
    "predicates in hierarchy", which are never more than the nodes. *)
Theorem analysis_names_among_predicates (root : Node) (rest : list Node)
    (analysis : list NodeMetrics) :
  analyze_hierarchy (root :: rest) = Some analysis ->
  map name analysis `sublist_of` extract_all_predicates root 0 /\
  (length analysis <= length (extract_all_predicates root 0))%nat /\
  (length (extract_all_predicates root 0) <= length (all_nodes root))%nat.
Proof. apply analysis_names_sublist. Qed.

Lemma analysis_names_among_predicates_witness :
  exists analysis,
    analyze_hierarchy [malformed_example] = Some analysis /\
    (length analysis <= length (extract_all_predicates malformed_example 0))%nat.
Proof.
  eexists. split; [reflexivity|].
  exact (proj1 (proj2 (analysis_names_among_predicates malformed_example [] _ eq_refl))).
Defined.

Lemma all_named_children nm children :
  all_named (mkNode nm (Some children)) -> Forall all_named children.
Proof.
  unfold all_named. cbn [all_nodes]. intros [_ Hall]%Forall_cons.
  apply List.Forall_concat in Hall. revert Hall.
  induction children as [|c cs IH]; cbn [map]; intros Hall; [constructor|].
  apply Forall_cons in Hall as [Hc Hcs]. constructor; [exact Hc|by apply IH].
Qed.

Lemma analyze_node_length_all_named all_predicates node d :
  all_named node ->
  length (analyze_node all_predicates node d []) = length (all_nodes node).
Proof.
  revert d. induction node as [nm|nm children IH] using Node_forest_ind;
    intros d Hall; rewrite analyze_node_preorder.
  - destruct (metrics_of_is_Some all_predicates (mkNode nm None) d) as [_ Hsome].
    by destruct Hsome as [e ->]; [by apply Forall_inv in Hall|].
  - destruct (metrics_of_is_Some all_predicates (mkNode nm (Some children)) d)
      as [_ Hsome].
    destruct Hsome as [e ->]; [by apply Forall_inv in Hall|].
    cbn [child_list node_children all_nodes length]. f_equal.
    apply all_named_children in Hall.
    induction IH as [|c cs Hc _ IHcs]; [done|]. cbn [map concat].
    apply Forall_cons in Hall as [Hc' Hcs'].
    by rewrite !length_app, Hc, IHcs.
Qed.

(** X7: the analysis has one entry per node exactly when every node of the
    tree has a name; it then lists the names as [extract_all_predicates]
    does. *)
Theorem analysis_complete_iff_all_named (root : Node) (rest : list Node)
    (analysis : list NodeMetrics) :
  analyze_hierarchy (root :: rest) = Some analysis ->
  (length analysis = length (all_nodes root) <-> all_named root) /\
  (all_named root -> map name analysis = extract_all_predicates root 0).
Proof.
  intros Hrun.
  destruct (analysis_names_sublist root rest analysis Hrun)
    as (Hsub & Hle1 & Hle2).
  assert (all_named root -> length analysis = length (all_nodes root)) as Hlen
    by (intros Hall; injection Hrun as <-; by apply analyze_node_length_all_named).
  split; [split; [|done]|].
  - intros Heq. apply omap_length_all_inv.
    rewrite <- extract_all_predicates_all_nodes with (d := 0). lia.
  - intros Hall. apply sublist_same_length; [done|].
    rewrite length_map, (Hlen Hall). done.
Qed.

Lemma analysis_complete_iff_all_named_witness :
  exists analysis,
    analyze_hierarchy [malformed_example] = Some analysis /\
    ~ all_named malformed_example.
Proof.
  eexists. split; [reflexivity|]. intros Hall.
  apply (proj1 (analysis_complete_iff_all_named malformed_example [] _ eq_refl))
    in Hall.
  discriminate Hall.
Defined.

(** X8: in every entry of the analysis the counts are ordered,
    [0 <= direct_children <= total_children]; one of them is 0 exactly when
    the other is; and a node without a [children] key has both at 0. *)
Theorem analysis_counts_ordered (root : Node) (rest : list Node)
    (analysis : list NodeMetrics) (e : NodeMetrics) :
  analyze_hierarchy (root :: rest) = Some analysis ->
  e ∈ analysis ->
  0 <= direct_children e <= total_children e /\
  (direct_children e = 0 <-> total_children e = 0) /\
  (has_children e = false -> total_children e = 0).
Proof.
  intros Hrun He.
  destruct (analysis_entry_origin _ _ _ _ Hrun He) as (path & node & _ & _ & Hm).
  apply metrics_of_fields in Hm as (_ & _ & Hdirect & Htotal & _ & _ & Hhas).
  rewrite Hdirect, Htotal, Hhas. destruct node as [nm [children|]].
  - rewrite count_children_recursive_unfold. cbn [fst snd node_children].
    assert (0 <= sum_Z (map (fun child => (count_children_recursive child (0 + 1)).1)
                          children)) as Hsum.
    { clear. induction children as [|c cs IH]; [done|]. cbn [map]. rewrite sum_Z_cons.
      rewrite count_children_recursive_total.
      pose proof (all_nodes_length_pos c). lia. }
    split; [lia|]. split.
    + split; [|lia]. intros Hzero. destruct children; [done|]. cbn [length] in Hzero. lia.
    + intros Hfalse. apply bool_decide_eq_false in Hfalse. by destruct Hfalse.
  - done.
Qed.

Lemma analysis_counts_ordered_witness :
  exists analysis e,
    analyze_hierarchy [worked_example] = Some analysis /\
    analysis !! 1%nat = Some e /\
    0 <= direct_children e <= total_children e.
Proof.
  eexists _, _. split; [reflexivity|]. split; [reflexivity|].
  refine (proj1 (analysis_counts_ordered worked_example [] _ _ eq_refl _)).
  apply list_elem_of_lookup_2 with 1%nat. reflexivity.
Defined.

(** ** More on sorting and selecting *)

Section SortReverseFilter.
Context {A : Type} (key : A -> Qc).

Lemma insert_reverse_head x sorted :
  Forall (fun y => (key y <= key x)%Qc) sorted ->
  insert_reverse key x sorted = x :: sorted.
Proof.
  destruct 1 as [|y sorted Hy _]; [done|]. cbn [insert_reverse].
  by rewrite (proj2 (Qc_ltb_false _ _) Hy).
Qed.

(** Filtering a sorted list and inserting into it can be done in either
    order. *)
Lemma filter_insert_reverse keep x sorted :
  StronglySorted (descending_by key) sorted ->
  List.filter keep (insert_reverse key x sorted)
  = if keep x then insert_reverse key x (List.filter keep sorted)
    else List.filter keep sorted.
Proof.
  induction 1 as [|y sorted Hsorted IH Hy]; cbn [insert_reverse List.filter].
  - by destruct (keep x).
  - destruct (Qc_ltb (key x) (key y)) eqn:Hlt; cbn [List.filter].
    + rewrite IH. destruct (keep x), (keep y); cbn [insert_reverse]; by rewrite ?Hlt.
    + destruct (keep x); [|done]. symmetry. apply insert_reverse_head.
      apply Qc_ltb_false in Hlt.
      assert (Forall (fun z => (key z <= key x)%Qc) (y :: sorted)) as Hall.
      { constructor; [done|]. eapply Forall_impl; [exact Hy|].
        intros z Hz. unfold descending_by in Hz. by eapply Qcle_trans. }
      apply Forall_forall. intros z Hz%list_elem_of_In.
      change (In z (List.filter keep (y :: sorted))) in Hz.
      apply filter_In in Hz as [Hz _]. apply list_elem_of_In in Hz.
      by apply (proj1 (Forall_forall _ _) Hall).
Qed.

Lemma filter_sort_reverse keep l :
  List.filter keep (sort_reverse key l) = sort_reverse key (List.filter keep l).
Proof.
  induction l as [|x l IH]; [done|].
  cbn [sort_reverse foldr List.filter]. fold (sort_reverse key l).
  rewrite filter_insert_reverse by apply sort_reverse_sorted.
  rewrite IH. by destruct (keep x).
Qed.
End SortReverseFilter.

Lemma filter_filter_implied {A} (f g : A -> bool) (l : list A) :
  (forall x, f x = true -> g x = true) ->
  List.filter f (List.filter g l) = List.filter f l.
Proof.
  intros Himp. induction l as [|x l IH]; [done|]. cbn [List.filter].
  destruct (g x) eqn:Hg; cbn [List.filter]; rewrite IH; [done|].
  destruct (f x) eqn:Hf; [|done]. rewrite (Himp x Hf) in Hg. discriminate.
Qed.

Lemma find_optimal_parents_candidates analysis min_children max_depth :
  Forall (fun e => is_candidate min_children max_depth e = true)
         (find_optimal_parents analysis min_children max_depth).
Proof.
  apply Forall_forall. intros e He. unfold find_optimal_parents in He.
  rewrite sort_reverse_perm in He. apply list_elem_of_In, filter_In in He. tauto.
Qed.

(** X9: selecting again, with the same thresholds, from the selected
    parents changes nothing. *)
Theorem find_optimal_parents_idempotent (analysis : list NodeMetrics)
    (min_children max_depth : Z) :
  find_optimal_parents (find_optimal_parents analysis min_children max_depth)
    min_children max_depth
  = find_optimal_parents analysis min_children max_depth.
Proof.
  apply find_optimal_parents_id.
  - apply find_optimal_parents_candidates.
  - apply sort_reverse_sorted.
Qed.

Lemma find_optimal_parents_filter_looser analysis
    min_children min_children' max_depth max_depth' :
  min_children <= min_children' ->
  max_depth' <= max_depth ->
  find_optimal_parents analysis min_children' max_depth'
  = List.filter (is_candidate min_children' max_depth')
      (find_optimal_parents analysis min_children max_depth).
Proof.
  intros Hmin Hmax. unfold find_optimal_parents.
  rewrite filter_sort_reverse, filter_filter_implied; [done|].
  intros e. rewrite !is_candidate_true. intros (? & ? & ? & ?).
  repeat split; [done|lia|lia|done].
Qed.

(** X10: with tighter thresholds the selector returns the parents it
    returns with looser thresholds, without those that fail the tighter
    ones and in the same order. *)
Theorem find_optimal_parents_tighten (analysis : list NodeMetrics)
    (min_children min_children' max_depth max_depth' : Z) :
  min_children <= min_children' ->
  max_depth' <= max_depth ->
  find_optimal_parents analysis min_children' max_depth'
  = List.filter (is_candidate min_children' max_depth')
      (find_optimal_parents analysis min_children max_depth).
Proof. apply find_optimal_parents_filter_looser. Qed.

Lemma find_optimal_parents_tighten_witness :
  find_optimal_parents sample_metrics 10 2
  = List.filter (is_candidate 10 2) (find_optimal_parents sample_metrics 5 3).
Proof. apply find_optimal_parents_tighten; lia. Defined.

Lemma Qc_quotient_le_numerator t n :
  0 <= t -> 1 <= n -> (Qc_of_Z t / Qc_of_Z n <= Qc_of_Z t)%Qc.
Proof.
  intros Ht Hn. unfold Qcdiv.
  rewrite <- (Qcmult_1_r (Qc_of_Z t)) at 2.
  apply Qcmult_le_mono_nonneg_l.
  - rewrite <- Z2Qc_inj_0. by apply (proj1 (Z2Qc_inj_le 0 t)).
  - rewrite <- (Qcmult_1_l (/ Qc_of_Z n)), <- Z2Qc_inj_1.
    apply (Qc_quotient_le_1 1 n); lia.
Qed.

(** No entry of an analysis is more efficient than the first one, the entry
    of the root. *)
Lemma analysis_root_efficiency root rest e0 tail e :
  analyze_hierarchy (root :: rest) = Some (e0 :: tail) ->
  e ∈ e0 :: tail ->
  (efficiency e <= efficiency e0)%Qc.
Proof.
  intros Hrun He.
  pose proof (analysis_root_entry _ _ _ _ Hrun) as Htotal0.
  assert (efficiency e0 = Qc_of_Z (total_children e0)) as ->.
  { injection Hrun as Hrun. rewrite analyze_node_preorder in Hrun.
    destruct (metrics_of _ root 0) as [e'|] eqn:Hm; [|done].
    injection Hrun as -> _.
    by apply metrics_of_fields in Hm as (_ & _ & _ & _ & _ & -> & _). }
  pose proof (analysis_total_children _ _ _ _ Hrun He) as Htotal.
  destruct (analysis_entry_origin _ _ _ _ Hrun He) as (path & node & _ & _ & Hm).
  apply metrics_of_fields in Hm as (_ & _ & _ & _ & _ & -> & _).
  apply Qcle_trans with (Qc_of_Z (total_children e)).
  - destruct (Z.gtb_spec (Z.of_nat (length path)) 0).
    + apply Qc_quotient_le_numerator; lia.
    + apply Qcle_refl.
  - apply (proj1 (Z2Qc_inj_le _ _)). lia.
Qed.

(** X11: when the entry of the root passes the filter, it is the first of
    the optimal parents: nothing in a tree is more efficient than its root,
    whatever the root is called. *)
Theorem root_ranks_first (root : Node) (rest : list Node)
    (e0 : NodeMetrics) (tail : list NodeMetrics) (min_children max_depth : Z) :
  analyze_hierarchy (root :: rest) = Some (e0 :: tail) ->
  is_candidate min_children max_depth e0 = true ->
  find_optimal_parents (e0 :: tail) min_children max_depth
  = e0 :: find_optimal_parents tail min_children max_depth.
Proof.
  intros Hrun Hcandidate. unfold find_optimal_parents.
  cbn [List.filter]. rewrite Hcandidate. cbn [sort_reverse foldr].
  apply insert_reverse_head, Forall_forall. intros e He.
  rewrite sort_reverse_perm in He. apply list_elem_of_In, filter_In in He as [He _].
  apply (analysis_root_efficiency root rest e0 tail e Hrun).
  apply list_elem_of_further. by apply list_elem_of_In.
Qed.

Lemma root_ranks_first_witness :
  exists e0 tail,
    analyze_hierarchy [worked_example] = Some (e0 :: tail) /\
    find_optimal_parents (e0 :: tail) 1 3 = e0 :: find_optimal_parents tail 1 3.
Proof.
  eexists _, _. split; [reflexivity|].
  apply (root_ranks_first worked_example []); reflexivity.
Defined.

(** ** More on the predicate sets *)

Lemma first_matching_all_kept k keep l :
  Forall (fun x => keep x = true) l -> first_matching k keep l = take k l.
Proof.
  intros Hall. revert k. induction Hall as [|x l Hx _ IH]; intros [|k]; cbn; try done.
  by rewrite Hx, IH.
Qed.

Lemma first_matching_agree k keep keep' l :
  Forall (fun x => keep x = keep' x) l ->
  first_matching k keep l = first_matching k keep' l.
Proof.
  intros Hall. revert k. induction Hall as [|x l Hx _ IH]; intros [|k]; cbn; try done.
  rewrite Hx. destruct (keep' x); by rewrite IH.
Qed.



(** Every set is made of the names of some of the optimal parents, in their
    order, and has at most eight of them. *)
Lemma build_sets_chosen optimal_parents key names :
  build_sets optimal_parents !! key = Some names ->
  exists chosen,
    chosen `sublist_of` optimal_parents /\ names = map name chosen /\
    (length chosen <= 8)%nat.
Proof.
  destruct (build_sets_lookup optimal_parents)
    as (Hcomprehensive & Hfocused & Hminimal & Hhigh & Hother).
  intros Hkey.
  destruct (decide (key ∈ ["comprehensive"; "focused"; "minimal"; "high_level"]%string))
    as [Hin|Hout]; [|by rewrite (Hother key Hout) in Hkey].
  rewrite !elem_of_cons in Hin.
  destruct Hin as [->|[->|[->|[->|[]%elem_of_nil]]]]; eexists;
    (split; [|split; [by simplify_eq|]]).
  - rewrite <- first_matching_all. apply first_matching_sublist.
  - rewrite <- first_matching_all.
    pose proof (first_matching_length 5 (fun _ => true) optimal_parents). lia.
  - apply first_matching_sublist.
  - apply first_matching_length.
  - apply first_matching_sublist.
  - pose proof (first_matching_length 6
                  (fun p => bool_decide (5 <= total_children p <= 20)) optimal_parents).
    lia.
  - apply first_matching_sublist.
  - pose proof (first_matching_length 6
                  (fun p => bool_decide (depth p <= 2)) optimal_parents).
    lia.
Qed.

(** X12: the dict of predicate sets has exactly the four keys
    [comprehensive], [focused], [minimal] and [high_level], with at most 5,
    8, 6 and 6 names; [comprehensive] is short only when there are fewer
    than five optimal parents. *)
Theorem build_sets_keys_and_sizes (optimal_parents : list NodeMetrics) :
  dom (build_sets optimal_parents)
  = list_to_set ["comprehensive"; "focused"; "minimal"; "high_level"]%string /\
  exists comprehensive focused minimal high_level,
    build_sets optimal_parents !! "comprehensive"%string = Some comprehensive /\
    build_sets optimal_parents !! "focused"%string = Some focused /\
    build_sets optimal_parents !! "minimal"%string = Some minimal /\
    build_sets optimal_parents !! "high_level"%string = Some high_level /\
    length comprehensive = (5 `min` length optimal_parents)%nat /\
    (length focused <= 8)%nat /\
    (length minimal <= 6)%nat /\
    (length high_level <= 6)%nat.
Proof.
  split.
  - unfold build_sets. rewrite !dom_insert_L, dom_empty_L. set_solver.
  - destruct (build_sets_lookup optimal_parents)
      as (Hcomprehensive & Hfocused & Hminimal & Hhigh & _).
    eexists _, _, _, _. do 4 (split; [done|]).
    rewrite !length_map, length_take. split; [done|].
    split; [|split]; apply first_matching_length.
Qed.

(** X13: [create_predicate_sets] selects with [max_depth = 2], so its
    sub-filter [depth <= 2] lets every optimal parent pass: [high_level] is
    the names of the first six optimal parents, and [comprehensive] is the
    first five names of [high_level]. *)
Theorem create_predicate_sets_high_level (analysis : list NodeMetrics) :
  let optimal_parents := find_optimal_parents analysis 10 2 in
  create_predicate_sets analysis !! "high_level"%string
  = Some (map name (take 6 optimal_parents)) /\
  create_predicate_sets analysis !! "comprehensive"%string
  = Some (take 5 (map name (take 6 optimal_parents))).
Proof.
  intros optimal_parents. unfold create_predicate_sets. fold optimal_parents.
  destruct (build_sets_lookup optimal_parents) as (-> & _ & _ & -> & _).
  split.
  - rewrite first_matching_all_kept; [done|].
    eapply Forall_impl; [apply find_optimal_parents_candidates|].
    intros e (_ & _ & Hdepth & _)%is_candidate_true.
    by apply bool_decide_eq_true.
  - by rewrite firstn_map, take_take.
Qed.

(** X14: [create_predicate_sets] selects with [min_children = 10], so the
    lower bound 5 of [minimal] never decides: [minimal] is the names of the
    first six optimal parents with [total_children] between 10 and 20. *)
Theorem create_predicate_sets_minimal (analysis : list NodeMetrics) :
  let optimal_parents := find_optimal_parents analysis 10 2 in
  create_predicate_sets analysis !! "minimal"%string
  = Some (map name (first_matching 6
            (fun p => bool_decide (10 <= total_children p <= 20)) optimal_parents)).
Proof.
  intros optimal_parents. unfold create_predicate_sets. fold optimal_parents.
  destruct (build_sets_lookup optimal_parents) as (_ & _ & -> & _).
  do 2 f_equal. apply first_matching_agree.
  eapply Forall_impl; [apply find_optimal_parents_candidates|].
  intros e (_ & Htotal & _)%is_candidate_true. cbn beta.
  apply bool_decide_ext. lia.
Qed.



(** X16: a name in a predicate set is never [related_to], and looking it up
    in the analysis, as [main] does before printing, always finds an entry
    with that name. *)
Theorem predicate_set_names_resolve (analysis : list NodeMetrics)
    (key : string) (names : list string) (pred : string) :
  create_predicate_sets analysis !! key = Some names ->
  pred ∈ names ->
  pred <> "related_to"%string /\
  exists p, pred_data analysis pred = Some p /\ name p = pred /\ p ∈ analysis.
Proof.
  unfold create_predicate_sets.
  intros (chosen & Hchosen & -> & _)%build_sets_chosen Hpred.
  apply list_elem_of_In, in_map_iff in Hpred as (e & <- & He%list_elem_of_In).
  assert (e ∈ find_optimal_parents analysis 10 2) as Hop
    by (apply (sublist_subseteq _ _ Hchosen); exact He).
  assert (e ∈ analysis /\ is_candidate 10 2 e = true) as [Hin Hcandidate].
  { unfold find_optimal_parents in Hop. rewrite sort_reverse_perm in Hop.
    apply list_elem_of_In, filter_In in Hop as [? ?]. by rewrite list_elem_of_In. }
  split; [by apply is_candidate_true in Hcandidate as (_ & _ & _ & ?)|].
  unfold pred_data.
  destruct (List.find _ analysis) as [p|] eqn:Hfind.
  - apply find_some in Hfind as [Hp Heq]. exists p.
    apply String.eqb_eq in Heq. by rewrite list_elem_of_In.
  - apply list_elem_of_In in Hin.
    pose proof (find_none _ _ Hfind e Hin) as Hne. cbn beta in Hne.
    by rewrite String.eqb_refl in Hne.
Qed.

Lemma predicate_set_names_resolve_witness :
  "affects"%string <> "related_to"%string /\
  exists p, pred_data sample_metrics "affects" = Some p /\
            name p = "affects"%string /\ p ∈ sample_metrics.
Proof.
  apply (predicate_set_names_resolve sample_metrics "comprehensive"
           ["affects"; "interacts_with"; "regulates"]%string).
  - reflexivity.
  - apply list_elem_of_here.
Defined.
